(** * ck: the dead-code broom bot (src/index.ts)

    A shallow embedding of the scan and restore commands of [src/index.ts]
    and of the helpers they call, followed by the properties of the
    detection-and-archival pipeline.

    Conventions of the embedding.
    - Paths, names and module specifiers are [string]s: the code only
      compares, slices and concatenates them, code unit by code unit.
    - Source text is a sequence of UTF-16 code units ([text]), since it is
      what [Buffer.from(text, "utf8")] encodes.
    - A JavaScript number is a [number]: a rational (every finite double is
      one), an infinity or NaN; the literals 0.9, 0.95 and 0.98 stand for
      the doubles they are parsed to.
    - The document store, the file system, the console and the clock are
      fields of an explicit [World] threaded through the commands. *)

From Stdlib Require Import ZArith QArith String Ascii List Bool Lia.
From stdpp Require Import gmap strings list.
Import ListNotations.

#[local] Set Warnings "-clear-no-such-hyp".

Local Open Scope string_scope.
Local Open Scope list_scope.
Local Open Scope Z_scope.

(** ** JavaScript strings *)

Module JSString.

(** [s.startsWith(p)] *)
Fixpoint startsWith (s p : string) : bool :=
  match p, s with
  | EmptyString, _ => true
  | String _ _, EmptyString => false
  | String c p', String d s' => Ascii.eqb c d && startsWith s' p'
  end.

(** [s.slice(n)] for [0 <= n] *)
Fixpoint slice (n : nat) (s : string) : string :=
  match n, s with
  | O, _ => s
  | S n', EmptyString => EmptyString
  | S n', String _ s' => slice n' s'
  end.

(** [s.endsWith(p)] *)
Definition endsWith (s p : string) : bool :=
  (String.length p <=? String.length s)%nat
  && String.eqb (slice (String.length s - String.length p) s) p.

(** [s.includes(p)] *)
Fixpoint includes (s p : string) : bool :=
  startsWith s p
  || match s with
     | EmptyString => false
     | String _ s' => includes s' p
     end.

(** [s.lastIndexOf(p)], counted from position [i] of the whole string;
    [None] is the -1 of JavaScript. *)
Fixpoint lastIndexOfFrom (i : nat) (s p : string) : option nat :=
  let here := if startsWith s p then Some i else None in
  match s with
  | EmptyString => here
  | String _ s' =>
      match lastIndexOfFrom (S i) s' p with
      | Some j => Some j
      | None => here
      end
  end.

Definition lastIndexOf (s p : string) : option nat := lastIndexOfFrom 0 s p.

(** [s.replace(/\\/g, "/")] *)
Fixpoint replaceBackslashes (s : string) : string :=
  match s with
  | EmptyString => EmptyString
  | String c s' =>
      String (if Ascii.eqb c "\"%char then "/"%char else c) (replaceBackslashes s')
  end.

(** Truthiness of a string: only the empty string is falsy. *)
Definition truthy (s : string) : bool :=
  match s with EmptyString => false | _ => true end.

End JSString.

(** ** JavaScript numbers *)

Inductive number : Type :=
| Finite (q : Q)
| PosInfinity
| NegInfinity
| NaN.

(** [a < b] on numbers: false as soon as one side is NaN. *)
Definition js_lt (a b : number) : bool :=
  match a, b with
  | NaN, _ | _, NaN => false
  | _, NegInfinity => false
  | PosInfinity, _ => false
  | NegInfinity, _ => true
  | Finite _, PosInfinity => true
  | Finite x, Finite y => negb (Qle_bool y x)
  end.

(** The doubles nearest to the literals of the source. *)
Definition double_0_9 : Q := 8106479329266893 # 9007199254740992.
Definition double_0_95 : Q := 4278419646001971 # 4503599627370496.
Definition double_0_98 : Q := 2206763817411543 # 2251799813685248.

(** ** The runtime's codecs: UTF-8 and base64 on Buffers

    [Buffer.from(text, "utf8")], [buf.toString("utf-8")],
    [buf.toString("base64")] and [Buffer.from(s, "base64")] belong to the
    Node.js runtime.  They are written here after the encodings they
    implement (RFC 3629 with the replacement of ill-formed input by U+FFFD,
    RFC 4648 with the lenient decoder of the runtime). *)

(** A JavaScript string as its UTF-16 code units, each in [0, 0xFFFF]. *)
Definition text : Type := list Z.

(** The content of a Buffer, each byte in [0, 0xFF]. *)
Definition bytes : Type := list Z.

Module Utf8.

Definition isHighSurrogate (u : Z) : bool := (0xD800 <=? u) && (u <=? 0xDBFF).
Definition isLowSurrogate (u : Z) : bool := (0xDC00 <=? u) && (u <=? 0xDFFF).

(** The bit fields of the encoding are written with division and remainder:
    [x / 64] is [x >> 6], [x mod 64] is [x & 0x3F], and a prefix is added to
    the field it sits above. *)

(** A continuation byte, [10xxxxxx]. *)
Definition continuation (x : Z) : Z := 0x80 + x mod 64.

Definition encodeCodePoint (cp : Z) : bytes :=
  if cp <? 0x80 then [cp]
  else if cp <? 0x800 then
    [0xC0 + cp / 64; continuation cp]
  else if cp <? 0x10000 then
    [0xE0 + cp / 4096; continuation (cp / 64); continuation cp]
  else
    [0xF0 + cp / 262144; continuation (cp / 4096); continuation (cp / 64);
     continuation cp].

Definition pairCodePoint (hi lo : Z) : Z :=
  0x10000 + (hi - 0xD800) * 1024 + (lo - 0xDC00).

(** [Buffer.from(t, "utf8")]: a surrogate pair is one code point, a lone
    surrogate is written as U+FFFD. *)
Fixpoint encode (t : text) : bytes :=
  match t with
  | [] => []
  | u :: rest =>
      if isHighSurrogate u then
        match rest with
        | v :: rest' =>
            if isLowSurrogate v
            then encodeCodePoint (pairCodePoint u v) ++ encode rest'
            else encodeCodePoint 0xFFFD ++ encode rest
        | [] => encodeCodePoint 0xFFFD
        end
      else if isLowSurrogate u then encodeCodePoint 0xFFFD ++ encode rest
      else encodeCodePoint u ++ encode rest
  end.

(** The decoder is the usual five-register machine. *)
Record DecoderState : Type := mkDecoder {
  codePoint : Z;
  bytesSeen : Z;
  bytesNeeded : Z;
  lowerBoundary : Z;
  upperBoundary : Z
}.

Definition initial : DecoderState := mkDecoder 0 0 0 0x80 0xBF.

(** A decoded code point as UTF-16 code units. *)
Definition emit (cp : Z) : text :=
  if cp <? 0x10000 then [cp]
  else [0xD800 + (cp - 0x10000) / 1024; 0xDC00 + (cp - 0x10000) mod 1024].

(** A byte read while no sequence is open. *)
Definition lead (b : Z) : DecoderState * text :=
  if b <=? 0x7F then (initial, [b])
  else if (0xC2 <=? b) && (b <=? 0xDF) then
    (mkDecoder (b mod 32) 0 1 0x80 0xBF, [])
  else if (0xE0 <=? b) && (b <=? 0xEF) then
    (mkDecoder (b mod 16) 0 2
       (if b =? 0xE0 then 0xA0 else 0x80) (if b =? 0xED then 0x9F else 0xBF), [])
  else if (0xF0 <=? b) && (b <=? 0xF4) then
    (mkDecoder (b mod 8) 0 3
       (if b =? 0xF0 then 0x90 else 0x80) (if b =? 0xF4 then 0x8F else 0xBF), [])
  else (initial, [0xFFFD]).

Definition step (st : DecoderState) (b : Z) : DecoderState * text :=
  if bytesNeeded st =? 0 then lead b
  else if negb ((lowerBoundary st <=? b) && (b <=? upperBoundary st)) then
    (* the open sequence is ill-formed; the byte is read again afresh *)
    let '(st', out) := lead b in (st', 0xFFFD :: out)
  else
    let cp := codePoint st * 64 + b mod 64 in
    let seen := bytesSeen st + 1 in
    if seen =? bytesNeeded st then (initial, emit cp)
    else (mkDecoder cp seen (bytesNeeded st) 0x80 0xBF, []).

Fixpoint decodeFrom (st : DecoderState) (bs : bytes) : text :=
  match bs with
  | [] => if bytesNeeded st =? 0 then [] else [0xFFFD]
  | b :: bs' => let '(st', out) := step st b in out ++ decodeFrom st' bs'
  end.

(** [buf.toString("utf-8")] *)
Definition decode (bs : bytes) : text := decodeFrom initial bs.

(** Well-formed UTF-16: code units in range, surrogates only in pairs. *)
Fixpoint wellFormed (t : text) : bool :=
  match t with
  | [] => true
  | u :: rest =>
      (0 <=? u) && (u <=? 0xFFFF) &&
      (if isHighSurrogate u then
         match rest with
         | v :: rest' => isLowSurrogate v && wellFormed rest'
         | [] => false
         end
       else negb (isLowSurrogate u) && wellFormed rest)
  end.

(** Running the machine over a whole byte sequence, keeping the state. *)
Fixpoint run (st : DecoderState) (bs : bytes) : DecoderState * text :=
  match bs with
  | [] => (st, [])
  | b :: bs' =>
      let '(st1, out1) := step st b in
      let '(st2, out2) := run st1 bs' in
      (st2, out1 ++ out2)
  end.

End Utf8.

Module Base64.

Definition alphabet : string :=
  "ABCDEFGHIJKLMNOPQRSTUVWXYZabcdefghijklmnopqrstuvwxyz0123456789+/".

Definition pad : ascii := "="%char.

Definition sextetChar (n : Z) : ascii :=
  match String.get (Z.to_nat n) alphabet with
  | Some c => c
  | None => pad
  end.

(** [buf.toString("base64")]: three bytes give four characters, the last
    group is padded with [=]. *)
Fixpoint encode (bs : bytes) : string :=
  match bs with
  | [] => EmptyString
  | [a] =>
      String (sextetChar (a / 4)) (String (sextetChar ((a mod 4) * 16))
        (String pad (String pad EmptyString)))
  | [a; b] =>
      String (sextetChar (a / 4)) (String (sextetChar ((a mod 4) * 16 + b / 16))
        (String (sextetChar ((b mod 16) * 4)) (String pad EmptyString)))
  | a :: b :: c :: rest =>
      String (sextetChar (a / 4)) (String (sextetChar ((a mod 4) * 16 + b / 16))
        (String (sextetChar ((b mod 16) * 4 + c / 64)) (String (sextetChar (c mod 64))
          (encode rest))))
  end.

(** The value of a character; the URL-safe [-] and [_] are accepted too. *)
Definition unbase64 (c : ascii) : option Z :=
  let n := Z.of_N (N_of_ascii c) in
  if (65 <=? n) && (n <=? 90) then Some (n - 65)
  else if (97 <=? n) && (n <=? 122) then Some (n - 71)
  else if (48 <=? n) && (n <=? 57) then Some (n + 4)
  else if (n =? 43) || (n =? 45) then Some 62
  else if (n =? 47) || (n =? 95) then Some 63
  else None.

(** Characters outside the alphabet are skipped, [=] ends the input. *)
Fixpoint sextets (s : string) : list Z :=
  match s with
  | EmptyString => []
  | String c s' =>
      if Ascii.eqb c pad then []
      else match unbase64 c with
           | Some v => v :: sextets s'
           | None => sextets s'
           end
  end.

Fixpoint group (l : list Z) : bytes :=
  match l with
  | s0 :: s1 :: s2 :: s3 :: rest =>
      (s0 * 4 + s1 / 16) :: ((s1 mod 16) * 16 + s2 / 4) :: ((s2 mod 4) * 64 + s3)
      :: group rest
  | [s0; s1; s2] => [s0 * 4 + s1 / 16; (s1 mod 16) * 16 + s2 / 4]
  | [s0; s1] => [s0 * 4 + s1 / 16]
  | _ => []
  end.

(** [Buffer.from(s, "base64")] *)
Definition decode (s : string) : bytes := group (sextets s).

(** The character of a sextet is not the padding and has the sextet for
    value. *)
Definition sextetOk (n : Z) : bool :=
  negb (Ascii.eqb (sextetChar n) pad)
  && match unbase64 (sextetChar n) with Some v => v =? n | None => false end.

End Base64.

Definition isByte (b : Z) : Prop := 0 <= b < 256.

(** ** The data model *)

Module ItemType.
Inductive t : Type := file | function | method | variable | class.
End ItemType.

Module Reason.
Inductive t : Type := unreachable_file | no_refs | compiler_unused.
End Reason.

Module Language.
Inductive t : Type := ts | js.
End Language.

(** An identifier of the store, as its 24 lower-case hexadecimal digits. *)
Definition ObjectId : Type := string.

Record Position : Type := { line : Z; col : Z }.
Record Range : Type := { start : Position; end_ : Position }.

Module ArchiveItem.
Record t : Type := {
  createdAt : Z;
  expiresAt : Z;
  repo : string;
  commit : string;
  language : Language.t;
  type : ItemType.t;
  name : option string;
  path : string;
  range : option Range;
  reason : Reason.t;
  confidence : number;
  references : list (string * Z);
  content_base64 : string;
  note : option string
}.
End ArchiveItem.

(** *** What the parsing collaborator (ts-morph) answers

    A [Node] carries the answers of the calls the scan makes on it, a
    [SourceFile] likewise. *)

Inductive SyntaxKind : Type :=
| FunctionDeclaration
| ClassDeclaration
| VariableDeclaration
| MethodDeclaration
| OtherKind.

Record Node : Type := {
  getKind : SyntaxKind;
  (** [n.getName()], [None] for an anonymous function or class *)
  getName : option string;
  (** [n.isExported()] of a function or class declaration *)
  isExported : bool;
  (** [v.getFirstAncestorByKind(SyntaxKind.VariableStatement)?.isExported()],
      [None] when there is no such ancestor *)
  variableStatementIsExported : option bool;
  (** [n.findReferences()]: per referenced symbol, its reference entries
      (file path and line) *)
  findReferences : list (list (string * Z));
  getText : text;
  getStartLineNumber : Z;
  getEndLineNumber : Z
}.

Record SourceFile : Type := {
  getFilePath : string;
  (** [sf.getDirectory().getPath()] *)
  getDirectoryPath : string;
  getFullText : text;
  (** the module specifier values of [sf.getImportDeclarations()] *)
  getImportDeclarations : list string;
  (** [sf.getExportedDeclarations()]: export name and its declarations *)
  getExportedDeclarations : list (string * list Node);
  (** the nodes [sf.forEachDescendant] visits, in order *)
  descendants : list Node
}.

Record Project : Type := {
  getSourceFiles : list SourceFile;
  getSourceFile : string -> option SourceFile
}.

(** *** Console output

    Each message stands for one [console.log] (or [console.error]) call of
    the source; colours are left out. *)
Inductive Message : Type :=
| MissingMongoUri                       (* error: Missing MongoDB URI. ... *)
| ScanningFor (srcDir : string)         (* Scanning for dead code in <srcDir>/ *)
| RepositoryIs (repo : string)
| CommitIs (commit : string)
| ArchivingUnreachableFiles (n : nat)   (* Archiving <n> unreachable files... *)
| FileArchived (path : string) (insertedId : ObjectId)
| Deleted                               (* deleted *)
| ArchivingUnusedSymbols (n : nat)      (* Archiving <n> unused symbols... *)
| SymbolArchived (type : ItemType.t) (name path : string) (insertedId : ObjectId)
| NodeRemovalNotImplemented             (* Node removal not implemented yet *)
| Archived                              (* archived *)
| Finished (totalArchived : nat)        (* ck finished! Archived <n> items. *)
| RunGitDiff                            (* Run 'git diff' to see changes, ... *)
| ItemNotFound (id : string)            (* error: Archive item with ID <id> not found. *)
| RestoredTo (type : ItemType.t) (name outputPath : string)
| RestoredFrom (type : ItemType.t) (name path : string)
| Rule (n : nat)                        (* a line of <n> dashes *)
| Content (content : text).

(** *** The world the commands act on *)

Record World : Type := {
  (** collection [ck_items], in insertion order *)
  ck_items : list (ObjectId * ArchiveItem.t);
  (** the regular files of the file system and their text *)
  disk : gmap string text;
  console : list Message;
  (** the successive readings of the clock, in milliseconds *)
  clock : nat -> Z;
  clockReads : nat;
  (** the identifiers the store hands out *)
  objectIds : nat -> ObjectId;
  objectIdsUsed : nat
}.

Definition log (m : Message) (w : World) : World :=
  {| ck_items := ck_items w; disk := disk w; console := console w ++ [m];
     clock := clock w; clockReads := clockReads w;
     objectIds := objectIds w; objectIdsUsed := objectIdsUsed w |}.

(** [Date.now()] and [new Date()] *)
Definition readClock (w : World) : Z * World :=
  (clock w (clockReads w),
   {| ck_items := ck_items w; disk := disk w; console := console w;
      clock := clock w; clockReads := S (clockReads w);
      objectIds := objectIds w; objectIdsUsed := objectIdsUsed w |}).

(** [col.insertOne(item)] *)
Definition insertOne (item : ArchiveItem.t) (w : World) : ObjectId * World :=
  let insertedId := objectIds w (objectIdsUsed w) in
  (insertedId,
   {| ck_items := ck_items w ++ [(insertedId, item)]; disk := disk w;
      console := console w; clock := clock w; clockReads := clockReads w;
      objectIds := objectIds w; objectIdsUsed := S (objectIdsUsed w) |}).

(** [col.findOne({ _id })] *)
Fixpoint findOne (id : ObjectId) (docs : list (ObjectId * ArchiveItem.t))
  : option ArchiveItem.t :=
  match docs with
  | [] => None
  | (k, item) :: docs' => if String.eqb k id then Some item else findOne id docs'
  end.

Definition setDisk (d : gmap string text) (w : World) : World :=
  {| ck_items := ck_items w; disk := d; console := console w;
     clock := clock w; clockReads := clockReads w;
     objectIds := objectIds w; objectIdsUsed := objectIdsUsed w |}.

(** [fs.rmSync(path, { force: true })]: no error when the file is missing. *)
Definition rmSync (path : string) (w : World) : World :=
  setDisk (delete path (disk w)) w.

(** [fs.writeFileSync(path, content)] *)
Definition writeFileSync (path : string) (content : text) (w : World) : World :=
  setDisk (<[path := content]> (disk w)) w.

(** [sf.saveSync()] writes the text the project holds for the file. *)
Definition saveSync (sf : SourceFile) (w : World) : World :=
  writeFileSync (getFilePath sf) (getFullText sf) w.

Inductive Outcome : Type :=
| Returned
| Exited (code : Z)
| Thrown (error : string)
| OutOfFuel.

(** ** Helpers of src/index.ts *)

Definition norm (sf : SourceFile) : string :=
  JSString.replaceBackslashes (getFilePath sf).

Definition rel (sf : SourceFile) (srcDir : string) : string :=
  let p := norm sf in
  match JSString.lastIndexOf p ("/" +:+ srcDir +:+ "/") with
  | Some i => JSString.slice (S i) p
  | None => p
  end.

Definition defaultEntrypoints (files : list SourceFile) (srcDir : string)
  : list string :=
  let candidates :=
    [srcDir +:+ "/index.ts"; srcDir +:+ "/index.tsx"; srcDir +:+ "/main.ts";
     srcDir +:+ "/main.tsx"; srcDir +:+ "/app.tsx"; srcDir +:+ "/App.tsx"] in
  List.filter (fun p => existsb (fun f => String.eqb (rel f srcDir) p) files)
    candidates.

(** The alternatives of the regular expression of [isDefinitelyKeep].  The
    expression is not anchored, and its [\.stories\.tsx?] and [\.test\.tsx?]
    match exactly when [.stories.ts] and [.test.ts] occur. *)
Definition keepPatterns : list string :=
  [".d.ts"; ".types.ts"; ".stories.ts"; ".test.ts"; "__mocks__"; ".config.ts";
   ".config.js"].

Definition isDefinitelyKeep (sf : SourceFile) : bool :=
  let p := norm sf in
  existsb (JSString.includes p) keepPatterns.

(** A JavaScript [Map] keeps the position of the first insertion of a key
    and the value of the last. *)
Fixpoint Map_set {V : Type} (k : string) (v : V) (m : list (string * V))
  : list (string * V) :=
  match m with
  | [] => [(k, v)]
  | (k', v') :: m' =>
      if String.eqb k' k then (k', v) :: m' else (k', v') :: Map_set k v m'
  end.

Definition Map_new {V : Type} (entries : list (string * V)) : list (string * V) :=
  fold_left (fun m e => Map_set (fst e) (snd e) m) entries [].

(** The first defined result of [f] along a list: a [for] loop that returns
    from inside. *)
Fixpoint firstSome {A B : Type} (f : A -> option B) (l : list A) : option B :=
  match l with
  | [] => None
  | a :: l' => match f a with Some b => Some b | None => firstSome f l' end
  end.

Definition tryPaths (spec : string) : list string :=
  [spec; spec +:+ ".ts"; spec +:+ ".tsx"; spec +:+ ".js"; spec +:+ ".jsx";
   spec +:+ "/index.ts"; spec +:+ "/index.tsx"].

Definition resolveImport (from : SourceFile) (spec : string)
    (map : list (string * SourceFile)) : option SourceFile :=
  if JSString.startsWith spec "." || JSString.startsWith spec "/" then
    firstSome
      (fun t =>
         let abs := getDirectoryPath from +:+ "/" +:+ t in
         firstSome
           (fun kv =>
              if JSString.endsWith (fst kv) (JSString.replaceBackslashes abs)
              then Some (snd kv) else None)
           map)
      (tryPaths spec)
  else None.

Definition isFunctionDeclaration (n : Node) : bool :=
  match getKind n with FunctionDeclaration => true | _ => false end.
Definition isClassDeclaration (n : Node) : bool :=
  match getKind n with ClassDeclaration => true | _ => false end.
Definition isVariableDeclaration (n : Node) : bool :=
  match getKind n with VariableDeclaration => true | _ => false end.
Definition isMethodDeclaration (n : Node) : bool :=
  match getKind n with MethodDeclaration => true | _ => false end.

Definition nodeType (n : Node) : ItemType.t :=
  if isFunctionDeclaration n then ItemType.function
  else if isMethodDeclaration n then ItemType.method
  else if isVariableDeclaration n then ItemType.variable
  else if isClassDeclaration n then ItemType.class
  else ItemType.variable.

(** [getName()] of a variable or method declaration is always a string;
    [None] is read as the empty one there. *)
Definition readableName (n : Node) : string :=
  if isFunctionDeclaration n || isClassDeclaration n then
    match getName n with
    | Some s => if JSString.truthy s then s else "<anonymous>"
    | None => "<anonymous>"
    end
  else if isVariableDeclaration n || isMethodDeclaration n then
    match getName n with Some s => s | None => "" end
  else "<unknown>".

Definition isExportedVar (v : Node) : bool :=
  match variableStatementIsExported v with
  | Some b => b
  | None => false
  end.

Definition toRange (n : Node) : Range :=
  let s := getStartLineNumber n in
  let e := getEndLineNumber n in
  {| start := {| line := s; col := 0 |}; end_ := {| line := e; col := 0 |} |}.

Definition toB64 (t : text) : string := Base64.encode (Utf8.encode t).

(** The inverse step of [restoreCommand]:
    [Buffer.from(b64, "base64").toString("utf-8")]. *)
Definition fromB64 (b64 : string) : text := Utf8.decode (Base64.decode b64).

Definition getLanguage (sf : SourceFile) : Language.t :=
  let path := getFilePath sf in
  if JSString.endsWith path ".ts" || JSString.endsWith path ".tsx"
  then Language.ts else Language.js.

(** ** scanCommand *)

Record ScanOptions : Type := {
  opt_project : string;
  opt_entry : list string;
  opt_mongo : string;
  opt_db : string;
  opt_apply : bool;
  opt_report : bool;
  opt_confidence : number;
  opt_srcDir : string
}.

(** The defaults commander gives the options of [scan]; the two
    environment variables are taken as unset. *)
Definition defaultScanOptions : ScanOptions :=
  {| opt_project := "tsconfig.json"; opt_entry := []; opt_mongo := "";
     opt_db := "ck"; opt_apply := false; opt_report := true;
     opt_confidence := Finite double_0_9; opt_srcDir := "src" |}.

(** The trimmed answers of [git remote get-url origin] and
    [git rev-parse HEAD], empty when the command fails. *)
Record Git : Type := { remoteUrl : string; head_ : string }.

Definition sourceFilesIn (project : Project) (srcDir : string) : list SourceFile :=
  List.filter
    (fun f =>
       JSString.includes (getFilePath f) ("/" +:+ srcDir +:+ "/")
       || JSString.includes (getFilePath f) ("\" +:+ srcDir +:+ "\"))
    (getSourceFiles project).

Definition sourceByPathOf (files : list SourceFile) : list (string * SourceFile) :=
  Map_new (List.map (fun f => (norm f, f)) files).

Definition entryFilesOf (project : Project) (opts : ScanOptions)
    (files : list SourceFile) : list SourceFile :=
  let entries :=
    match opt_entry opts with
    | [] => defaultEntrypoints files (opt_srcDir opts)
    | _ => opt_entry opts
    end in
  flat_map
    (fun p => match getSourceFile project p with Some sf => [sf] | None => [] end)
    entries.

(** *** Reachability

    The array [stack] is kept top first: [stack.pop()] takes the head and
    [stack.push(r)] conses, so [[...entryFiles]] is [rev entryFiles]. *)

Definition pushImports (sourceByPath : list (string * SourceFile))
    (sf : SourceFile) (reachable : gset string) (stack : list SourceFile)
  : list SourceFile :=
  fold_left
    (fun stack t =>
       match resolveImport sf t sourceByPath with
       | Some r => if bool_decide (norm r ∈ reachable) then stack else r :: stack
       | None => stack
       end)
    (getImportDeclarations sf) stack.

Fixpoint reachLoop (fuel : nat) (sourceByPath : list (string * SourceFile))
    (stack : list SourceFile) (reachable : gset string) : option (gset string) :=
  match fuel with
  | O => None
  | S fuel' =>
      match stack with
      | [] => Some reachable
      | sf :: stack' =>
          let p := norm sf in
          if bool_decide (p ∈ reachable)
          then reachLoop fuel' sourceByPath stack' reachable
          else
            let reachable' := {[p]} ∪ reachable in
            reachLoop fuel' sourceByPath
              (pushImports sourceByPath sf reachable' stack') reachable'
      end
  end.

Definition importCount (units : list SourceFile) : nat :=
  list_sum (List.map (fun sf => length (getImportDeclarations sf)) units).

(** Enough turns of the loop for any run on these units (see
    [reachLoop_enough_fuel]). *)
Definition reachFuel (entryFiles : list SourceFile)
    (sourceByPath : list (string * SourceFile)) : nat :=
  let units := entryFiles ++ List.map snd sourceByPath in
  S (length entryFiles + S (importCount units) * length units).

Definition reachableFrom (entryFiles : list SourceFile)
    (sourceByPath : list (string * SourceFile)) : option (gset string) :=
  reachLoop (reachFuel entryFiles sourceByPath) sourceByPath (rev entryFiles) ∅.

Definition unreachableOf (files : list SourceFile) (reachable : gset string)
  : list SourceFile :=
  List.filter
    (fun f => negb (bool_decide (norm f ∈ reachable)) && negb (isDefinitelyKeep f))
    files.

(** *** Unused symbols *)

Module Unused.
Record t : Type := {
  node : Node;
  file : SourceFile;
  type : ItemType.t;
  name : string;
  reason : Reason.t;
  confidence : number
}.
End Unused.

(** [decl.findReferences().flatMap(r => r.getReferences())] *)
Definition refs (n : Node) : list (string * Z) := concat (findReferences n).

Definition refCount (n : Node) : nat := length (refs n).

(** The entry pushed for an unused exported declaration. *)
Definition exported (sf : SourceFile) (decl : Node) : Unused.t :=
  {| Unused.node := decl; Unused.file := sf; Unused.type := nodeType decl;
     Unused.name := readableName decl; Unused.reason := Reason.no_refs;
     Unused.confidence := Finite double_0_95 |}.

(** The body of the loop over the exported declarations. *)
Definition scanExported (sf : SourceFile) (decl : Node) : list Unused.t :=
  if isFunctionDeclaration decl || isClassDeclaration decl || isVariableDeclaration decl
  then
    if (refCount decl <=? 1)%nat then [exported sf decl] else []
  else [].

(** The entry pushed for an unused declaration met by [forEachDescendant]. *)
Definition local (sf : SourceFile) (n : Node) (type : ItemType.t) : Unused.t :=
  {| Unused.node := n; Unused.file := sf; Unused.type := type;
     Unused.name := readableName n; Unused.reason := Reason.no_refs;
     Unused.confidence := Finite double_0_9 |}.

(** The callback given to [forEachDescendant]: four tests in a row. *)
Definition scanDescendant (sf : SourceFile) (n : Node) : list Unused.t :=
  (if isFunctionDeclaration n && negb (isExported n) then
     if (refCount n <=? 1)%nat then [local sf n ItemType.function] else []
   else [])
  ++ (if isClassDeclaration n && negb (isExported n) then
        if (refCount n <=? 1)%nat then [local sf n ItemType.class] else []
      else [])
  ++ (if isVariableDeclaration n && negb (isExportedVar n) then
        if (refCount n <=? 1)%nat then [local sf n ItemType.variable] else []
      else [])
  ++ (if isMethodDeclaration n then
        if (refCount n <=? 1)%nat then [local sf n ItemType.method] else []
      else []).

Definition unusedIn (sf : SourceFile) : list Unused.t :=
  flat_map (fun exp => flat_map (scanExported sf) (snd exp))
    (getExportedDeclarations sf)
  ++ flat_map (scanDescendant sf) (descendants sf).

(** [for (const sf of files)]: every file of the source directory. *)
Definition unusedSymbolsOf (files : list SourceFile) : list Unused.t :=
  flat_map unusedIn files.

(** *** Archiving and applying *)

Definition repoOf (git : Git) : string :=
  if JSString.truthy (remoteUrl git) then remoteUrl git else "local".

Definition commitOf (git : Git) : string :=
  if JSString.truthy (head_ git) then head_ git else "unknown".

Definition ttlMilliseconds : Z := 1000 * 60 * 60 * 24 * 90.

Definition fileItem (git : Git) (opts : ScanOptions) (ttl createdAt : Z)
    (sf : SourceFile) : ArchiveItem.t :=
  {| ArchiveItem.createdAt := createdAt;
     ArchiveItem.expiresAt := ttl;
     ArchiveItem.repo := repoOf git;
     ArchiveItem.commit := commitOf git;
     ArchiveItem.language := getLanguage sf;
     ArchiveItem.type := ItemType.file;
     ArchiveItem.name := None;
     ArchiveItem.path := rel sf (opt_srcDir opts);
     ArchiveItem.range := None;
     ArchiveItem.reason := Reason.unreachable_file;
     ArchiveItem.confidence := Finite double_0_98;
     ArchiveItem.references := [];
     ArchiveItem.content_base64 := toB64 (getFullText sf);
     ArchiveItem.note := Some "ck unreachable file" |}.

Definition symbolItem (git : Git) (opts : ScanOptions) (ttl createdAt : Z)
    (u : Unused.t) : ArchiveItem.t :=
  {| ArchiveItem.createdAt := createdAt;
     ArchiveItem.expiresAt := ttl;
     ArchiveItem.repo := repoOf git;
     ArchiveItem.commit := commitOf git;
     ArchiveItem.language := getLanguage (Unused.file u);
     ArchiveItem.type := Unused.type u;
     ArchiveItem.name := Some (Unused.name u);
     ArchiveItem.path := rel (Unused.file u) (opt_srcDir opts);
     ArchiveItem.range := Some (toRange (Unused.node u));
     ArchiveItem.reason := Unused.reason u;
     ArchiveItem.confidence := Unused.confidence u;
     ArchiveItem.references := [];
     ArchiveItem.content_base64 := toB64 (getText (Unused.node u));
     ArchiveItem.note := Some "ck unused symbol" |}.

(** One turn of [for (const sf of unreachable)]. *)
Definition archiveFile (git : Git) (opts : ScanOptions) (ttl : Z)
    (w : World) (sf : SourceFile) : World :=
  let '(createdAt, w) := readClock w in
  let item := fileItem git opts ttl createdAt sf in
  let '(insertedId, w) := insertOne item w in
  let w := log (FileArchived (rel sf (opt_srcDir opts)) insertedId) w in
  if opt_apply opts then
    let w := rmSync (getFilePath sf) w in
    log Deleted w
  else w.

(** One turn of [for (const u of unusedSymbols)]; the state carries
    [archivedCount]. *)
Definition archiveSymbol (git : Git) (opts : ScanOptions) (ttl : Z)
    (st : World * nat) (u : Unused.t) : World * nat :=
  let '(w, archivedCount) := st in
  if js_lt (Unused.confidence u) (opt_confidence opts) then st
  else
    let '(createdAt, w) := readClock w in
    let item := symbolItem git opts ttl createdAt u in
    let '(insertedId, w) := insertOne item w in
    let w :=
      log (SymbolArchived (Unused.type u) (Unused.name u)
             (rel (Unused.file u) (opt_srcDir opts)) insertedId) w in
    let w :=
      if opt_apply opts then
        let w := log NodeRemovalNotImplemented w in
        let w := saveSync (Unused.file u) w in
        log Archived w
      else w in
    (w, S archivedCount).

(** [project] is what [new Project({ tsConfigFilePath: opts.project })] has
    loaded.  The run is followed where loading the project, the store and
    the file system do not throw: a scan that throws ends there, with what
    it has done so far. *)
Definition scanCommand (project : Project) (git : Git) (opts : ScanOptions)
    (w : World) : Outcome * World :=
  if negb (JSString.truthy (opt_mongo opts)) then (Exited 1, log MissingMongoUri w)
  else
    let repo := repoOf git in
    let commit := commitOf git in
    let w := log (ScanningFor (opt_srcDir opts)) w in
    let w := log (RepositoryIs repo) w in
    let w := log (CommitIs commit) w in
    let files := sourceFilesIn project (opt_srcDir opts) in
    let sourceByPath := sourceByPathOf files in
    let entryFiles := entryFilesOf project opts files in
    match reachableFrom entryFiles sourceByPath with
    | None => (OutOfFuel, w)
    | Some reachable =>
        let unreachable := unreachableOf files reachable in
        let unusedSymbols := unusedSymbolsOf files in
        let '(now, w) := readClock w in
        let ttl := now + ttlMilliseconds in
        let w := log (ArchivingUnreachableFiles (length unreachable)) w in
        let w := fold_left (archiveFile git opts ttl) unreachable w in
        let w := log (ArchivingUnusedSymbols (length unusedSymbols)) w in
        let '(w, archivedCount) :=
          fold_left (archiveSymbol git opts ttl) unusedSymbols (w, O) in
        let totalArchived := (length unreachable + archivedCount)%nat in
        let w := log (Finished totalArchived) w in
        let w := if opt_apply opts then log RunGitDiff w else w in
        (Returned, w)
    end.

(** ** restoreCommand *)

Record RestoreOptions : Type := {
  ropt_output : option string;
  ropt_mongo : string;
  ropt_db : string
}.

Definition isHexDigit (c : ascii) : bool :=
  let n := Z.of_N (N_of_ascii c) in
  ((48 <=? n) && (n <=? 57)) || ((65 <=? n) && (n <=? 70))
  || ((97 <=? n) && (n <=? 102)).

Definition toLowerAscii (c : ascii) : ascii :=
  let n := N_of_ascii c in
  if ((65 <=? n) && (n <=? 90))%N then ascii_of_N (n + 32) else c.

Fixpoint allChars (f : ascii -> bool) (s : string) : bool :=
  match s with
  | EmptyString => true
  | String c s' => f c && allChars f s'
  end.

Fixpoint mapChars (f : ascii -> ascii) (s : string) : string :=
  match s with
  | EmptyString => EmptyString
  | String c s' => String (f c) (mapChars f s')
  end.

(** [new ObjectId(id)] of the driver: a string is accepted when it is made
    of 24 hexadecimal digits, and the constructor throws otherwise. *)
Definition newObjectId (id : string) : option ObjectId :=
  if (String.length id =? 24)%nat && allChars isHexDigit id
  then Some (mapChars toLowerAscii id)
  else None.

Definition objectIdError : string :=
  "BSONError: input must be a 24 character hex string, 12 byte Uint8Array, or an integer".

Definition nameOrFile (item : ArchiveItem.t) : string :=
  match ArchiveItem.name item with
  | Some s => if JSString.truthy s then s else "file"
  | None => "file"
  end.

(** The test [if (opts.output)]: an absent or empty path prints to the
    console. *)
Definition outputOf (opts : RestoreOptions) : option string :=
  match ropt_output opts with
  | Some output => if JSString.truthy output then Some output else None
  | None => None
  end.

(** The four lines printed when no output path is given. *)
Definition printRestored (item : ArchiveItem.t) (content : text) (w : World) : World :=
  let w :=
    log (RestoredFrom (ArchiveItem.type item) (nameOrFile item) (ArchiveItem.path item)) w in
  let w := log (Rule 50) w in
  let w := log (Content content) w in
  log (Rule 50) w.

(** [resolve] is [path.resolve] for the working directory of the process.
    Directories are not kept in [disk], so [fs.mkdirSync] leaves no trace;
    the run is followed where the store and [fs.writeFileSync] do not
    throw. *)
Definition restoreCommand (resolve : string -> string) (id : string)
    (opts : RestoreOptions) (w : World) : Outcome * World :=
  if negb (JSString.truthy (ropt_mongo opts)) then (Exited 1, log MissingMongoUri w)
  else
    match newObjectId id with
    | None => (Thrown objectIdError, w)
    | Some oid =>
        match findOne oid (ck_items w) with
        | None => (Exited 1, log (ItemNotFound id) w)
        | Some item =>
            let content := fromB64 (ArchiveItem.content_base64 item) in
            match outputOf opts with
            | Some output =>
                let outputPath := resolve output in
                let w := writeFileSync outputPath content w in
                (Returned,
                 log (RestoredTo (ArchiveItem.type item) (nameOrFile item) outputPath) w)
            | None => (Returned, printRestored item content w)
            end
        end
    end.

(** ** Auxiliary definitions for the proofs *)

(** [f] holds on the [n] integers from [from] on. *)
Fixpoint allFrom (n : nat) (f : Z -> bool) (from : Z) : bool :=
  match n with
  | O => true
  | S n' => f from && allFrom n' f (from + 1)
  end.

(** The documents the loop over [unreachable] inserts, when it starts with
    [reads] readings of the clock and [used] identifiers behind it. *)
Fixpoint fileDocs (git : Git) (opts : ScanOptions) (ttl : Z)
    (clock : nat -> Z) (ids : nat -> ObjectId) (reads used : nat)
    (l : list SourceFile) : list (ObjectId * ArchiveItem.t) :=
  match l with
  | [] => []
  | sf :: l' =>
      (ids used, fileItem git opts ttl (clock reads) sf)
      :: fileDocs git opts ttl clock ids (S reads) (S used) l'
  end.

(** The symbols that pass [if (u.confidence < opts.confidence) continue]. *)
Definition kept (opts : ScanOptions) (l : list Unused.t) : list Unused.t :=
  List.filter (fun u => negb (js_lt (Unused.confidence u) (opt_confidence opts))) l.

(** The documents the loop over [unusedSymbols] inserts for them. *)
Fixpoint symbolDocs (git : Git) (opts : ScanOptions) (ttl : Z)
    (clock : nat -> Z) (ids : nat -> ObjectId) (reads used : nat)
    (l : list Unused.t) : list (ObjectId * ArchiveItem.t) :=
  match l with
  | [] => []
  | u :: l' =>
      (ids used, symbolItem git opts ttl (clock reads) u)
      :: symbolDocs git opts ttl clock ids (S reads) (S used) l'
  end.

(** The documents a scan inserts, given the reachable set it computed. *)
Definition scanDocs (project : Project) (git : Git) (opts : ScanOptions)
    (w : World) (reachable : gset string) : list (ObjectId * ArchiveItem.t) :=
  let files := sourceFilesIn project (opt_srcDir opts) in
  let unreachable := unreachableOf files reachable in
  let ttl := clock w (clockReads w) + ttlMilliseconds in
  fileDocs git opts ttl (clock w) (objectIds w)
    (S (clockReads w)) (objectIdsUsed w) unreachable
  ++ symbolDocs git opts ttl (clock w) (objectIds w)
       (S (clockReads w) + length unreachable) (objectIdsUsed w + length unreachable)
       (kept opts (unusedSymbolsOf files)).

(** Every import of [u] that resolves lands in [R]. *)
Definition closedUnit (sourceByPath : list (string * SourceFile))
    (R : gset string) (u : SourceFile) : Prop :=
  forall t r, In t (getImportDeclarations u) ->
              resolveImport u t sourceByPath = Some r -> norm r ∈ R.

(** The invariant of the reachability loop: each reachable path is the path
    of a unit whose resolved imports are reachable or still on the stack. *)
Definition pending (sourceByPath : list (string * SourceFile))
    (units stack : list SourceFile) (R : gset string) : Prop :=
  forall p, p ∈ R ->
    exists u, In u units /\ norm u = p /\
      forall t r, In t (getImportDeclarations u) ->
                  resolveImport u t sourceByPath = Some r ->
                  norm r ∈ R \/ In r stack.

(** The scope of the usage detector in a file, and being reported. *)
Definition exportedScope (sf : SourceFile) (d : Node) : Prop :=
  (exists exp, In exp (getExportedDeclarations sf) /\ In d (snd exp))
  /\ (isFunctionDeclaration d || isClassDeclaration d || isVariableDeclaration d) = true.

Definition localScope (sf : SourceFile) (n : Node) : Prop :=
  In n (descendants sf)
  /\ ((isFunctionDeclaration n && negb (isExported n))
      || (isClassDeclaration n && negb (isExported n))
      || (isVariableDeclaration n && negb (isExportedVar n))
      || isMethodDeclaration n) = true.

Definition reportedUnused (files : list SourceFile) (sf : SourceFile) (n : Node)
  : Prop :=
  exists u, In u (unusedSymbolsOf files) /\ Unused.node u = n /\ Unused.file u = sf.

Definition nodesOf (sf : SourceFile) : list Node :=
  flat_map snd (getExportedDeclarations sf) ++ descendants sf.

(** The texts a scan may archive are well-formed UTF-16. *)
Definition wellFormedSources (files : list SourceFile) : Prop :=
  forall sf, In sf files ->
    Utf8.wellFormed (getFullText sf) = true
    /\ forall n, In n (nodesOf sf) -> Utf8.wellFormed (getText n) = true.

(** ** A small project, for examples *)

Module Demo.

(** ASCII source text as code units. *)
Definition textOf (s : string) : text :=
  List.map (fun c => Z.of_N (N_of_ascii c)) (list_ascii_of_string s).

Definition declaration (kind : SyntaxKind) (name : string) (exported : bool)
    (references : list (string * Z)) (source : string) (first last : Z) : Node :=
  {| getKind := kind; getName := Some name; isExported := exported;
     variableStatementIsExported := None;
     findReferences := [references]; getText := textOf source;
     getStartLineNumber := first; getEndLineNumber := last |}.

Definition main : Node :=
  declaration FunctionDeclaration "main" true
    [("/proj/src/index.ts", 2); ("/proj/src/index.ts", 9)]
    "export function main() { helper(); }" 2 2.

Definition helper : Node :=
  declaration FunctionDeclaration "helper" false
    [("/proj/src/index.ts", 4); ("/proj/src/index.ts", 2)]
    "function helper() {}" 4 4.

Definition stale : Node :=
  declaration MethodDeclaration "stale" false
    [("/proj/src/index.ts", 6)]
    "stale() {}" 6 6.

Definition orphan : Node :=
  declaration FunctionDeclaration "orphan" true
    [("/proj/src/dead.ts", 1)]
    "export function orphan() {}" 1 1.

Definition indexTs : SourceFile :=
  {| getFilePath := "/proj/src/index.ts"; getDirectoryPath := "/proj/src";
     getFullText := textOf "import './used'; export function main() { helper(); }";
     getImportDeclarations := ["./used"; "commander"];
     getExportedDeclarations := [("main", [main])];
     descendants := [main; helper; stale] |}.

Definition legacyTs : SourceFile :=
  {| getFilePath := "/proj/src/legacy.ts"; getDirectoryPath := "/proj/src";
     getFullText := textOf "console.log(1);";
     getImportDeclarations := []; getExportedDeclarations := [];
     descendants := [] |}.

Definition deadTs : SourceFile :=
  {| getFilePath := "/proj/src/dead.ts"; getDirectoryPath := "/proj/src";
     getFullText := textOf "export function orphan() {}";
     getImportDeclarations := [];
     getExportedDeclarations := [("orphan", [orphan])];
     descendants := [orphan] |}.

Definition specTs : SourceFile :=
  {| getFilePath := "/proj/src/index.test.ts"; getDirectoryPath := "/proj/src";
     getFullText := textOf "import './index';";
     getImportDeclarations := ["./index"]; getExportedDeclarations := [];
     descendants := [] |}.

Definition rootTs : SourceFile :=
  {| getFilePath := "/proj/build.ts"; getDirectoryPath := "/proj";
     getFullText := textOf "export {};";
     getImportDeclarations := []; getExportedDeclarations := [];
     descendants := [] |}.

Definition sources : list SourceFile := [indexTs; legacyTs; deadTs; specTs; rootTs].

(** The process runs in [/proj]. *)
Definition resolve (p : string) : string :=
  if JSString.startsWith p "/" then p else "/proj/" +:+ p.

Definition project : Project :=
  {| getSourceFiles := sources;
     getSourceFile := fun p =>
       List.find (fun sf => String.eqb (getFilePath sf) (resolve p)) sources |}.

Definition git : Git :=
  {| remoteUrl := "https://example.org/demo.git";
     head_ := "0123456789abcdef0123456789abcdef01234567" |}.

Definition hexDigit (n : nat) : ascii :=
  match String.get (n mod 16) "0123456789abcdef" with
  | Some c => c
  | None => "0"%char
  end.

Definition objectId (n : nat) : ObjectId :=
  "65a1b2c3d4e5f60718293" +:+
  String (hexDigit (n / 256)) (String (hexDigit (n / 16)) (String (hexDigit n) "")).

Definition world : World :=
  {| ck_items := [];
     disk := list_to_map (List.map (fun sf => (getFilePath sf, getFullText sf)) sources);
     console := [];
     clock := fun n => 1700000000000 + 5 * Z.of_nat n;
     clockReads := O;
     objectIds := objectId;
     objectIdsUsed := O |}.

Definition options : ScanOptions :=
  {| opt_project := "tsconfig.json"; opt_entry := ["src/index.ts"];
     opt_mongo := "mongodb://localhost:27017"; opt_db := "ck";
     opt_apply := false; opt_report := true;
     opt_confidence := Finite double_0_9; opt_srcDir := "src" |}.

Definition withApply (o : ScanOptions) : ScanOptions :=
  {| opt_project := opt_project o; opt_entry := opt_entry o;
     opt_mongo := opt_mongo o; opt_db := opt_db o;
     opt_apply := true; opt_report := opt_report o;
     opt_confidence := opt_confidence o; opt_srcDir := opt_srcDir o |}.

Definition withConfidence (c : number) (o : ScanOptions) : ScanOptions :=
  {| opt_project := opt_project o; opt_entry := opt_entry o;
     opt_mongo := opt_mongo o; opt_db := opt_db o;
     opt_apply := opt_apply o; opt_report := opt_report o;
     opt_confidence := c; opt_srcDir := opt_srcDir o |}.

Definition restoreOptions : RestoreOptions :=
  {| ropt_output := None; ropt_mongo := "mongodb://localhost:27017";
     ropt_db := "ck" |}.

Definition files : list SourceFile := sourceFilesIn project "src".

Definition entryFiles : list SourceFile := entryFilesOf project options files.

End Demo.

(** ** listCommand *)

(** [lopt_limit] is the value of [--limit] after [Number(v)]: any number,
    NaN included (50 when the flag is absent). *)
Record ListOptions : Type := {
  lopt_mongo : string;
  lopt_db : string;
  lopt_repo : option string;
  lopt_type : option string;
  lopt_limit : number
}.

(** The documents of the collection, or of a reply. *)
Definition Documents : Type := list (ObjectId * ArchiveItem.t).

(** The string a type is stored and filtered as. *)
Definition itemTypeName (t : ItemType.t) : string :=
  match t with
  | ItemType.file => "file"
  | ItemType.function => "function"
  | ItemType.method => "method"
  | ItemType.variable => "variable"
  | ItemType.class => "class"
  end.

(** The filter built by [if (opts.repo) filter.repo = opts.repo] and
    [if (opts.type) filter.type = opts.type], as the store reads it: each
    field that is set must be equal. *)
Definition matchesFilter (opts : ListOptions) (item : ArchiveItem.t) : bool :=
  match lopt_repo opts with
  | Some r => if JSString.truthy r then String.eqb (ArchiveItem.repo item) r else true
  | None => true
  end
  && match lopt_type opts with
     | Some t =>
         if JSString.truthy t
         then String.eqb (itemTypeName (ArchiveItem.type item)) t else true
     | None => true
     end.

(** [.sort({ createdAt: -1 })]: newest first.  Documents created at the
    same millisecond are kept in insertion order here; the store promises
    no order among them. *)
Fixpoint insertNewest (d : ObjectId * ArchiveItem.t)
    (l : list (ObjectId * ArchiveItem.t)) : list (ObjectId * ArchiveItem.t) :=
  match l with
  | [] => [d]
  | x :: l' =>
      if ArchiveItem.createdAt (snd x) <=? ArchiveItem.createdAt (snd d)
      then d :: l
      else x :: insertNewest d l'
  end.

Definition sortNewest (l : list (ObjectId * ArchiveItem.t))
  : list (ObjectId * ArchiveItem.t) :=
  fold_right insertNewest [] l.

(** [.limit(n)]: the first [n] documents; for the store 0 is no limit. *)
Definition limitTo {A : Type} (n : nat) (l : list A) : list A :=
  match n with
  | O => l
  | _ => firstn n l
  end.

(** A limit the store is known to take as it is: a whole number from 0 up
    to the 32-bit range.  The other values [Number(v)] can give (negative,
    fractional, larger, infinite, NaN) are left to [otherLimits] below. *)
Definition wholeLimit (l : number) : option nat :=
  match l with
  | Finite q =>
      let z := Qnum q / Z.pos (Qden q) in
      if (z * Z.pos (Qden q) =? Qnum q) && (0 <=? z) && (z <? 2 ^ 31)
      then Some (Z.to_nat z) else None
  | _ => None
  end.

(** [col.find(filter).sort({ createdAt: -1 }).limit(opts.limit).toArray()].
    What the driver and the store make of a limit that is no [wholeLimit] is
    not modelled: [otherLimits] stands for it, given the limit and the
    matching documents in order, and answers with the documents of the
    reply, or with an outcome that is not [Returned] when the call throws. *)
Definition listItems (otherLimits : number -> Documents -> Outcome * Documents)
    (opts : ListOptions) (docs : Documents) : Outcome * Documents :=
  let matching :=
    sortNewest (List.filter (fun doc => matchesFilter opts (snd doc)) docs) in
  match wholeLimit (lopt_limit opts) with
  | Some n => (Returned, limitTo n matching)
  | None => otherLimits (lopt_limit opts) matching
  end.

(** [s.slice(-n)] *)
Definition sliceFromEnd (n : nat) (s : string) : string :=
  JSString.slice (String.length s - n) s.

(** What [listCommand] prints.  A row shows the icon and the name of the
    type, the last 8 characters of the identifier, the name (or [file]),
    the path and the day of [createdAt], kept here as the time itself. *)
Inductive ListLine : Type :=
| ListHeader (count : nat)              (* Archived items (<count>): *)
| ListRule (n : nat)                    (* a line of <n> dashes *)
| ListRow (type : ItemType.t) (idEnd name path : string) (createdAt : Z).

Definition rowOf (doc : ObjectId * ArchiveItem.t) : ListLine :=
  ListRow (ArchiveItem.type (snd doc)) (sliceFromEnd 8 (fst doc))
    (nameOrFile (snd doc)) (ArchiveItem.path (snd doc))
    (ArchiveItem.createdAt (snd doc)).

(** The lines of the listing are returned beside the world.  When the
    query throws, nothing is printed. *)
Definition listCommand (otherLimits : number -> Documents -> Outcome * Documents)
    (opts : ListOptions) (w : World) : Outcome * World * list ListLine :=
  if negb (JSString.truthy (lopt_mongo opts)) then
    (Exited 1, log MissingMongoUri w, [])
  else
    match listItems otherLimits opts (ck_items w) with
    | (Returned, items) =>
        (Returned, w,
         ListHeader (length items) :: ListRule 80 :: List.map rowOf items)
    | (outcome, _) => (outcome, w, [])
    end.

(** ** More runs of the small project *)

Module Samples.

Definition withEntry (entry : list string) (o : ScanOptions) : ScanOptions :=
  {| opt_project := opt_project o; opt_entry := entry;
     opt_mongo := opt_mongo o; opt_db := opt_db o;
     opt_apply := opt_apply o; opt_report := opt_report o;
     opt_confidence := opt_confidence o; opt_srcDir := opt_srcDir o |}.

(** [--entry src/missing.ts]: the project has no such file. *)
Definition noEntry : ScanOptions := withEntry ["src/missing.ts"] Demo.options.

(** [--entry src/index.test.ts]: the test file imports [./index]. *)
Definition importing : ScanOptions := withEntry ["src/index.test.ts"] Demo.options.

(** The store after the scan of the small project. *)
Definition archive : World :=
  snd (scanCommand Demo.project Demo.git Demo.options Demo.world).

(** [ck list --type file] and [ck list --limit 1] *)
Definition listFiles : ListOptions :=
  {| lopt_mongo := "mongodb://localhost:27017"; lopt_db := "ck";
     lopt_repo := None; lopt_type := Some "file";
     lopt_limit := Finite (50 # 1) |}.

Definition listOne : ListOptions :=
  {| lopt_mongo := "mongodb://localhost:27017"; lopt_db := "ck";
     lopt_repo := None; lopt_type := None; lopt_limit := Finite (1 # 1) |}.

(** A store that refuses every limit that is no whole number. *)
Definition refusing (l : number) (matching : Documents) : Outcome * Documents :=
  (Thrown "MongoServerError", []).

(** A function exported from a namespace: [isExported()] holds for it, and
    the file does not list it among its exported declarations.
    [namespace util { export function inner() {} }] *)
Definition inner : Node :=
  {| getKind := FunctionDeclaration; getName := Some "inner"; isExported := true;
     variableStatementIsExported := None;
     findReferences := [[("/proj/src/util.ts", 1)]];
     getText := Demo.textOf "export function inner() {}";
     getStartLineNumber := 1; getEndLineNumber := 1 |}.

Definition utilTs : SourceFile :=
  {| getFilePath := "/proj/src/util.ts"; getDirectoryPath := "/proj/src";
     getFullText := Demo.textOf "namespace util { export function inner() {} }";
     getImportDeclarations := []; getExportedDeclarations := [];
     descendants := [inner] |}.

End Samples.

(** ** More auxiliary definitions *)

(** A file from which a chain of resolved imports leads back to an entry
    file. *)
Inductive Reaches (sourceByPath : list (string * SourceFile))
    (entryFiles : list SourceFile) : SourceFile -> Prop :=
| Reaches_entry (e : SourceFile) :
    In e entryFiles -> Reaches sourceByPath entryFiles e
| Reaches_import (u : SourceFile) (t : string) (r : SourceFile) :
    Reaches sourceByPath entryFiles u ->
    In t (getImportDeclarations u) ->
    resolveImport u t sourceByPath = Some r ->
    Reaches sourceByPath entryFiles r.

(** The messages of the loop over [unreachable]. *)
Fixpoint fileMessages (opts : ScanOptions) (ids : nat -> ObjectId) (used : nat)
    (l : list SourceFile) : list Message :=
  match l with
  | [] => []
  | sf :: l' =>
      FileArchived (rel sf (opt_srcDir opts)) (ids used)
      :: (if opt_apply opts then [Deleted] else [])
      ++ fileMessages opts ids (S used) l'
  end.

(** The messages of the loop over [unusedSymbols], for the symbols that
    pass the threshold. *)
Fixpoint symbolMessages (opts : ScanOptions) (ids : nat -> ObjectId) (used : nat)
    (l : list Unused.t) : list Message :=
  match l with
  | [] => []
  | u :: l' =>
      SymbolArchived (Unused.type u) (Unused.name u)
        (rel (Unused.file u) (opt_srcDir opts)) (ids used)
      :: (if opt_apply opts then [NodeRemovalNotImplemented; Archived] else [])
      ++ symbolMessages opts ids (S used) l'
  end.

(** Everything a scan prints, given the reachable set it computed. *)
Definition scanMessages (project : Project) (git : Git) (opts : ScanOptions)
    (w : World) (reachable : gset string) : list Message :=
  let files := sourceFilesIn project (opt_srcDir opts) in
  let unreachable := unreachableOf files reachable in
  let unusedSymbols := unusedSymbolsOf files in
  [ScanningFor (opt_srcDir opts); RepositoryIs (repoOf git); CommitIs (commitOf git);
   ArchivingUnreachableFiles (length unreachable)]
  ++ fileMessages opts (objectIds w) (objectIdsUsed w) unreachable
  ++ [ArchivingUnusedSymbols (length unusedSymbols)]
  ++ symbolMessages opts (objectIds w) (objectIdsUsed w + length unreachable)
       (kept opts unusedSymbols)
  ++ [Finished (length unreachable + length (kept opts unusedSymbols))]
  ++ (if opt_apply opts then [RunGitDiff] else []).

(** The paths a loop removes or saves. *)
Definition removedPaths (l : list SourceFile) : list string :=
  List.map getFilePath l.

Definition savedPaths (l : list Unused.t) : list string :=
  List.map (fun u => getFilePath (Unused.file u)) l.

(** No character of the string is a backslash. *)
Definition noBackslash (s : string) : bool :=
  allChars (fun c => negb (Ascii.eqb c "\"%char)) s.

(** The characters of a base64 text: the 64 of the alphabet and the
    padding sign. *)
Definition isBase64Char (c : ascii) : bool :=
  Ascii.eqb c Base64.pad
  || existsb (Ascii.eqb c) (list_ascii_of_string Base64.alphabet).

(** Newest first: no document is older than one that follows it. *)
Fixpoint newestFirst (l : list (ObjectId * ArchiveItem.t)) : Prop :=
  match l with
  | [] => True
  | a :: l' =>
      (forall b, In b l' ->
                 ArchiveItem.createdAt (snd b) <= ArchiveItem.createdAt (snd a))
      /\ newestFirst l'
  end.

(** A path without an empty, [.] or [..] segment inside, as ts-morph gives
    the paths of its source files. *)
Definition standardPath (p : string) : bool :=
  negb (JSString.includes p "/./") && negb (JSString.includes p "/../")
  && negb (JSString.includes p "//").

(** A module specifier written relative to the importing file, or from the
    root. *)
Definition relativeSpecifier (t : string) : bool :=
  JSString.startsWith t "./" || JSString.startsWith t "../"
  || JSString.startsWith t "/".

(** An item without its two dates. *)
Definition undated (item : ArchiveItem.t) : ArchiveItem.t :=
  {| ArchiveItem.createdAt := 0;
     ArchiveItem.expiresAt := 0;
     ArchiveItem.repo := ArchiveItem.repo item;
     ArchiveItem.commit := ArchiveItem.commit item;
     ArchiveItem.language := ArchiveItem.language item;
     ArchiveItem.type := ArchiveItem.type item;
     ArchiveItem.name := ArchiveItem.name item;
     ArchiveItem.path := ArchiveItem.path item;
     ArchiveItem.range := ArchiveItem.range item;
     ArchiveItem.reason := ArchiveItem.reason item;
     ArchiveItem.confidence := ArchiveItem.confidence item;
     ArchiveItem.references := ArchiveItem.references item;
     ArchiveItem.content_base64 := ArchiveItem.content_base64 item;
     ArchiveItem.note := ArchiveItem.note item |}.

(** ** Readings of the spec *)

(** The syntactic reference count of a declaration: every reference the
    parser returns for it, over all the symbols it groups them by, the
    declaration site included. *)
Definition referenceCount (d : Node) : nat :=
  list_sum (List.map (fun group => length group) (findReferences d)).

(** Marked as exported: the declaration itself for a function or a class,
    the statement it stands in for a variable. *)
Definition markedExported (d : Node) : bool :=
  if isVariableDeclaration d then isExportedVar d else isExported d.

(** The scope of the usage detector as the spec words it: among the
    declarations of a file, the exported function, class and variable
    declarations, those that are not exported, and all method
    declarations. *)
Definition consideredScope (sf : SourceFile) (d : Node) : Prop :=
  In d (descendants sf)
  /\ (((isFunctionDeclaration d || isClassDeclaration d || isVariableDeclaration d)
       && markedExported d)
      || ((isFunctionDeclaration d || isClassDeclaration d || isVariableDeclaration d)
          && negb (markedExported d))
      || isMethodDeclaration d) = true.

(** Import resolution as the spec words it: a relative specifier names a
    path from the directory of the importing unit, tried with the fixed list
    of candidates, and resolves to the loaded unit of that path. *)
Module SpecReading.

(** The segments of a path, cut at its slashes. *)
Fixpoint segments (current s : string) : list string :=
  match s with
  | EmptyString => [current]
  | String c s' =>
      if Ascii.eqb c "/"%char then current :: segments EmptyString s'
      else segments (current +:+ String c EmptyString) s'
  end.

(** Empty and [.] segments are dropped, [..] takes the segment before it
    away; [kept] holds the segments so far, last first. *)
Fixpoint simplify (kept todo : list string) : list string :=
  match todo with
  | [] => rev kept
  | seg :: todo' =>
      if String.eqb seg "" || String.eqb seg "." then simplify kept todo'
      else if String.eqb seg ".." then simplify (tl kept) todo'
      else simplify (seg :: kept) todo'
  end.

(** The path a candidate names from a directory. *)
Definition joinPath (dir t : string) : string :=
  fold_left (fun path seg => path +:+ "/" +:+ seg)
    (simplify [] (segments EmptyString (dir +:+ "/" +:+ t))) EmptyString.

Definition resolve (from : SourceFile) (spec : string) (files : list SourceFile)
  : option SourceFile :=
  if JSString.startsWith spec "." || JSString.startsWith spec "/" then
    firstSome
      (fun t =>
         List.find
           (fun f => String.eqb (norm f) (joinPath (getDirectoryPath from) t))
           files)
      (tryPaths spec)
  else None.

End SpecReading.

(** Case analysis on membership in an explicit list. *)
Ltac in_cases H :=
  repeat (destruct H as [H|H]; [try subst|]); try contradiction.

(** Comparisons on integers as propositions. *)
Ltac to_arith :=
  repeat match goal with
  | H : (_ && _) = true |- _ => apply andb_true_iff in H as [? ?]
  | H : (_ && _) = false |- _ => apply andb_false_iff in H as [H|H]
  | H : negb _ = true |- _ => apply negb_true_iff in H
  | H : negb _ = false |- _ => apply negb_false_iff in H
  | H : (_ <=? _) = true |- _ => apply Z.leb_le in H
  | H : (_ <=? _) = false |- _ => apply Z.leb_gt in H
  | H : (_ <? _) = true |- _ => apply Z.ltb_lt in H
  | H : (_ <? _) = false |- _ => apply Z.ltb_ge in H
  | H : (_ =? _) = true |- _ => apply Z.eqb_eq in H
  | H : (_ =? _) = false |- _ => apply Z.eqb_neq in H
  end.

(** Linear arithmetic with division and remainder by constants. *)
Ltac divlia := Z.to_euclidean_division_equations; lia.

(** Reading the registers of a decoder state. *)
Ltac registers :=
  cbn [Utf8.bytesNeeded Utf8.bytesSeen Utf8.codePoint Utf8.lowerBoundary
       Utf8.upperBoundary Utf8.initial].

(** One case split on the next test of the goal; the impossible side is
    closed by arithmetic. *)
Ltac branch :=
  first
    [ match goal with
      | |- context [if ?a =? ?b then _ else _] => destruct (Z.eqb_spec a b)
      end
    | match goal with
      | |- context [if ?c then _ else _] =>
          let E := fresh "E" in destruct c eqn:E; to_arith
      end ];
  try (exfalso; divlia); registers.

(** * Properties *)

(** ** Reachability *)

Lemma firstSome_In {A B : Type} (f : A -> option B) (l : list A) (b : B) :
  firstSome f l = Some b -> exists a, In a l /\ f a = Some b.
Proof.
  induction l as [|a l IH]; simpl; [discriminate|].
  destruct (f a) as [b'|] eqn:Ha.
  - intros [= ->]. exists a. auto.
  - intros H. destruct (IH H) as (a' & Hin & Hf). exists a'. auto.
Qed.

Lemma resolveImport_In (from : SourceFile) (spec : string)
    (m : list (string * SourceFile)) (r : SourceFile) :
  resolveImport from spec m = Some r -> In r (List.map snd m).
Proof.
  unfold resolveImport.
  destruct (_ || _); [|discriminate].
  intros H. apply firstSome_In in H as (t & _ & H).
  apply firstSome_In in H as (kv & Hkv & H).
  destruct (JSString.endsWith _ _); [|discriminate].
  injection H as <-. now apply in_map.
Qed.

Lemma Map_set_In {V : Type} (k : string) (v : V) (m : list (string * V)) kv :
  In kv (Map_set k v m) -> kv = (k, v) \/ In kv m.
Proof.
  induction m as [|[k' v'] m IH]; simpl.
  - intros [<-|[]]. now left.
  - destruct (String.eqb k' k) eqn:E; simpl.
    + intros [<-|H]; [|now right; right].
      apply String.eqb_eq in E. subst. now left.
    + intros [<-|H]; [now right; left|].
      destruct (IH H); [now left|now right; right].
Qed.

Lemma Map_new_In {V : Type} (entries : list (string * V)) kv :
  In kv (Map_new entries) -> In kv entries.
Proof.
  unfold Map_new.
  assert (G : forall acc, In kv (fold_left (fun m e => Map_set (fst e) (snd e) m) entries acc)
                          -> In kv entries \/ In kv acc).
  { induction entries as [|[k v] entries IH]; simpl; intros acc H; [now right|].
    destruct (IH _ H) as [H'|H']; [now left; right|].
    apply Map_set_In in H' as [->|H']; [now left; left|now right]. }
  intros H. destruct (G [] H) as [H'|[]]. exact H'.
Qed.

Lemma sourceByPathOf_values (files : list SourceFile) (r : SourceFile) :
  In r (List.map snd (sourceByPathOf files)) -> In r files.
Proof.
  intros H. apply in_map_iff in H as ([k v] & <- & H).
  apply Map_new_In, in_map_iff in H as (f & [= _ ->] & H). exact H.
Qed.

Lemma importCount_In (sf : SourceFile) (l : list SourceFile) :
  In sf l -> (length (getImportDeclarations sf) <= importCount l)%nat.
Proof.
  unfold importCount.
  induction l as [|a l IH]; simpl; [intros []|].
  intros [->|H]; [lia|]. specialize (IH H). lia.
Qed.

Lemma size_list_to_set_le (l : list string) :
  (size (list_to_set l : gset string) <= length l)%nat.
Proof.
  induction l as [|a l IH].
  - rewrite list_to_set_nil, size_empty. simpl. lia.
  - rewrite list_to_set_cons, size_union_alt, size_singleton. simpl.
    assert (size ((list_to_set l : gset string) ∖ {[a]}) <= size (list_to_set l : gset string))%nat
      by (apply subseteq_size; set_solver).
    lia.
Qed.

Section Reach.

Variable sourceByPath : list (string * SourceFile).

(** [pushImports] keeps the stack and adds the resolved imports that are
    not reachable yet. *)
Lemma pushImports_In (sf : SourceFile) (R : gset string)
    (stack : list SourceFile) (x : SourceFile) :
  In x (pushImports sourceByPath sf R stack) <->
  In x stack \/
  exists t, In t (getImportDeclarations sf)
            /\ resolveImport sf t sourceByPath = Some x /\ norm x ∉ R.
Proof.
  unfold pushImports.
  generalize (getImportDeclarations sf) as imports.
  intros imports. revert stack.
  induction imports as [|t imports IH]; simpl; intros stack.
  - split; [now left|]. intros [H|(t & [] & _)]. exact H.
  - rewrite IH. clear IH.
    destruct (resolveImport sf t sourceByPath) as [r|] eqn:Hr.
    + destruct (bool_decide (norm r ∈ R)) eqn:Hd.
      * apply bool_decide_eq_true in Hd. split.
        -- intros [H|(t' & Ht' & H)]; [now left|]. right. exists t'. tauto.
        -- intros [H|(t' & [<-|Ht'] & Hx & Hn)]; [now left| |].
           ++ rewrite Hr in Hx. injection Hx as ->. contradiction.
           ++ right. exists t'. tauto.
      * apply bool_decide_eq_false in Hd. split.
        -- intros [[<-|H]|(t' & Ht' & H)].
           ++ right. exists t. tauto.
           ++ now left.
           ++ right. exists t'. tauto.
        -- intros [H|(t' & [<-|Ht'] & Hx & Hn)].
           ++ left. now right.
           ++ rewrite Hr in Hx. injection Hx as ->. left. now left.
           ++ right. exists t'. tauto.
    + split.
      * intros [H|(t' & Ht' & H)]; [now left|]. right. exists t'. tauto.
      * intros [H|(t' & [<-|Ht'] & Hx & Hn)]; [now left| |].
        -- rewrite Hr in Hx. discriminate.
        -- right. exists t'. tauto.
Qed.

Lemma pushImports_length (sf : SourceFile) (R : gset string)
    (stack : list SourceFile) :
  (length (pushImports sourceByPath sf R stack)
   <= length stack + length (getImportDeclarations sf))%nat.
Proof.
  unfold pushImports.
  generalize (getImportDeclarations sf) as imports.
  intros imports. revert stack.
  induction imports as [|t imports IH]; simpl; intros stack; [lia|].
  etransitivity; [apply IH|].
  destruct (resolveImport sf t sourceByPath); [|lia].
  destruct (bool_decide _); simpl; lia.
Qed.

Variable units : list SourceFile.
Hypothesis values_in_units :
  forall r, In r (List.map snd sourceByPath) -> In r units.

Lemma reachLoop_sound (fuel : nat) :
  forall stack R R',
    reachLoop fuel sourceByPath stack R = Some R' ->
    (forall x, In x stack -> In x units) ->
    pending sourceByPath units stack R ->
    R ⊆ R'
    /\ (forall x, In x stack -> norm x ∈ R')
    /\ (forall p, p ∈ R' ->
        exists u, In u units /\ norm u = p /\ closedUnit sourceByPath R' u).
Proof.
  induction fuel as [|fuel IH]; simpl; intros stack R R' Hrun Hstack Hpend;
    [discriminate|].
  destruct stack as [|sf stack].
  - injection Hrun as <-. split; [done|]. split; [intros x []|].
    intros p Hp. destruct (Hpend p Hp) as (u & Hu & Hn & Hc).
    exists u. split; [exact Hu|]. split; [exact Hn|].
    intros t r Ht Hr. destruct (Hc t r Ht Hr) as [H|[]]. exact H.
  - destruct (bool_decide (norm sf ∈ R)) eqn:Hd.
    + apply bool_decide_eq_true in Hd.
      destruct (IH stack R R' Hrun) as (Hsub & Hst & Hcl).
      * intros x Hx. apply Hstack. now right.
      * intros p Hp. destruct (Hpend p Hp) as (u & Hu & Hn & Hc).
        exists u. split; [exact Hu|]. split; [exact Hn|].
        intros t r Ht Hr. destruct (Hc t r Ht Hr) as [H|[<-|H]]; auto.
      * split; [exact Hsub|]. split; [|exact Hcl].
        intros x [<-|Hx]; [now apply Hsub|now apply Hst].
    + apply bool_decide_eq_false in Hd.
      destruct (IH _ _ R' Hrun) as (Hsub & Hst & Hcl).
      * intros x Hx. apply pushImports_In in Hx as [Hx|(t & _ & Hx & _)].
        -- apply Hstack. now right.
        -- apply values_in_units. eapply resolveImport_In. exact Hx.
      * intros p Hp. apply elem_of_union in Hp as [Hp|Hp].
        -- apply elem_of_singleton in Hp. subst p.
           exists sf. split; [apply Hstack; now left|]. split; [reflexivity|].
           intros t r Ht Hr.
           destruct (decide (norm r ∈ {[norm sf]} ∪ R)) as [Hin|Hout]; [now left|].
           right. apply pushImports_In. right. exists t. tauto.
        -- destruct (Hpend p Hp) as (u & Hu & Hn & Hc).
           exists u. split; [exact Hu|]. split; [exact Hn|].
           intros t r Ht Hr. destruct (Hc t r Ht Hr) as [H|[<-|H]].
           ++ left. set_solver.
           ++ left. set_solver.
           ++ right. apply pushImports_In. now left.
      * split; [set_solver|]. split; [|exact Hcl].
        intros x [<-|Hx]; [set_solver|].
        apply Hst. apply pushImports_In. now left.
Qed.

(** The measure that decreases: the stack, and the paths not yet
    reachable weighted by the number of pushes a visit can make. *)
Lemma reachLoop_enough_fuel (fuel : nat) :
  forall stack R,
    (forall x, In x stack -> In x units) ->
    (length stack
     + S (importCount units)
       * size ((list_to_set (List.map norm units) : gset string) ∖ R) < fuel)%nat ->
    exists R', reachLoop fuel sourceByPath stack R = Some R'.
Proof.
  induction fuel as [|fuel IH]; intros stack R Hstack Hfuel; [lia|].
  simpl. destruct stack as [|sf stack]; [eauto|].
  simpl in Hfuel.
  destruct (bool_decide (norm sf ∈ R)) eqn:Hd.
  - apply IH; [|lia]. intros x Hx. apply Hstack. now right.
  - apply bool_decide_eq_false in Hd.
    set (U := (list_to_set (List.map norm units) : gset string)) in *.
    assert (HU : norm sf ∈ U).
    { apply elem_of_list_to_set, list_elem_of_In, in_map, Hstack. now left. }
    assert (Hsize : size (U ∖ R) = S (size (U ∖ ({[norm sf]} ∪ R)))).
    { replace (U ∖ R) with ({[norm sf]} ∪ (U ∖ ({[norm sf]} ∪ R))).
      - rewrite size_union by set_solver. now rewrite size_singleton.
      - apply set_eq. intros y. destruct (decide (y = norm sf)); set_solver. }
    apply IH.
    + intros x Hx. apply pushImports_In in Hx as [Hx|(t & _ & Hx & _)].
      * apply Hstack. now right.
      * apply values_in_units. eapply resolveImport_In. exact Hx.
    + pose proof (pushImports_length sf ({[norm sf]} ∪ R) stack) as Hlen.
      assert (Himp : (length (getImportDeclarations sf) <= importCount units)%nat)
        by (apply importCount_In, Hstack; now left).
      rewrite Hsize in Hfuel. rewrite Nat.mul_succ_r in Hfuel. lia.
Qed.

End Reach.

Lemma reachableFrom_total (entryFiles : list SourceFile)
    (sourceByPath : list (string * SourceFile)) :
  exists reachable, reachableFrom entryFiles sourceByPath = Some reachable.
Proof.
  unfold reachableFrom, reachFuel.
  set (units := entryFiles ++ List.map snd sourceByPath).
  apply (reachLoop_enough_fuel sourceByPath units).
  - intros r Hr. apply in_or_app. now right.
  - intros x Hx. apply in_or_app. left. now apply in_rev.
  - rewrite length_rev.
    assert (size ((list_to_set (List.map norm units) : gset string) ∖ ∅) <= length units)%nat.
    { etransitivity; [apply subseteq_size|].
      - apply subseteq_difference_l. reflexivity.
      - etransitivity; [apply size_list_to_set_le|]. now rewrite length_map. }
    apply Nat.lt_succ_r, Nat.add_le_mono_l, Nat.mul_le_mono_l. exact H.
Qed.

(** The reachable set holds the path of each entry file and is closed under
    what [resolveImport] itself resolves: an import of a file of the set
    that [resolveImport] finds a file for leads to a loaded file of the set.
    A project holds one source file per path. *)
Lemma reachable_closed_under_resolveImport (files entryFiles : list SourceFile) :
  (forall u v, In u (entryFiles ++ files) -> In v (entryFiles ++ files) ->
               norm u = norm v -> u = v) ->
  exists reachable,
    reachableFrom entryFiles (sourceByPathOf files) = Some reachable
    /\ (forall e, In e entryFiles -> norm e ∈ reachable)
    /\ (forall u, In u (entryFiles ++ files) -> norm u ∈ reachable ->
        forall t r, In t (getImportDeclarations u) ->
                    resolveImport u t (sourceByPathOf files) = Some r ->
                    In r files /\ norm r ∈ reachable).
Proof.
  intros Huniq.
  destruct (reachableFrom_total entryFiles (sourceByPathOf files)) as [R HR].
  exists R. split; [exact HR|].
  unfold reachableFrom in HR.
  apply (reachLoop_sound (sourceByPathOf files) (entryFiles ++ files)) in HR
    as (_ & Hstack & Hclosed).
  - split.
    + intros e He. apply Hstack. now apply in_rev in He.
    + intros u Hu HuR t r Ht Hr. split.
      * eapply sourceByPathOf_values, resolveImport_In. exact Hr.
      * destruct (Hclosed _ HuR) as (u' & Hu' & Hn & Hc).
        assert (u' = u) as -> by (apply Huniq; assumption).
        eapply Hc; eassumption.
  - intros r Hr. apply in_or_app. right. now apply sourceByPathOf_values.
  - intros x Hx. apply in_or_app. left. now apply in_rev.
  - intros p Hp. set_solver.
Qed.

Lemma reachable_closed_under_resolveImport_demo :
  exists reachable,
    reachableFrom Demo.entryFiles (sourceByPathOf Demo.files) = Some reachable
    /\ (forall e, In e Demo.entryFiles -> norm e ∈ reachable)
    /\ (forall u, In u (Demo.entryFiles ++ Demo.files) -> norm u ∈ reachable ->
        forall t r, In t (getImportDeclarations u) ->
                    resolveImport u t (sourceByPathOf Demo.files) = Some r ->
                    In r Demo.files /\ norm r ∈ reachable).
Proof.
  apply (reachable_closed_under_resolveImport Demo.files Demo.entryFiles).
  assert (E : Demo.entryFiles ++ Demo.files
              = [Demo.indexTs; Demo.indexTs; Demo.legacyTs; Demo.deadTs; Demo.specTs])
    by (vm_compute; reflexivity).
  rewrite E. intros u v Hu Hv Hn. simpl in Hu, Hv.
  in_cases Hu; in_cases Hv; try reflexivity; vm_compute in Hn; discriminate Hn.
Defined.

(** [resolveImport] joins the directory and the specifier as they are and
    tests the result as a suffix of the known paths: for [./legacy] from
    [index.ts] it looks for [/proj/src/./legacy.ts] and finds nothing. *)
Example relative_specifier_not_resolved :
  resolveImport Demo.indexTs "./legacy" (sourceByPathOf Demo.files) = None
  /\ List.map getFilePath (unreachableOf Demo.files {["/proj/src/index.ts"]})
     = ["/proj/src/legacy.ts"; "/proj/src/dead.ts"].
Proof. split; vm_compute; reflexivity. Qed.

(** ** Unreachable files *)

(** C10. A source file whose path matches one of the keep patterns is never
    in the unreachable output, whatever the reachable set is. *)
Theorem keep_exempt_never_unreachable (files : list SourceFile)
    (reachable : gset string) (sf : SourceFile) :
  (exists pattern, In pattern keepPatterns
                   /\ JSString.includes (norm sf) pattern = true) ->
  ~ In sf (unreachableOf files reachable).
Proof.
  intros (pattern & Hp & Hinc) Hin.
  unfold unreachableOf in Hin. apply filter_In in Hin as [_ Hin].
  apply andb_true_iff in Hin as [_ Hkeep].
  apply negb_true_iff in Hkeep.
  assert (isDefinitelyKeep sf = true) as Hk.
  { unfold isDefinitelyKeep. apply existsb_exists. exists pattern. auto. }
  congruence.
Qed.

Lemma keep_exempt_never_unreachable_witness :
  ~ In Demo.specTs (unreachableOf Demo.files ∅).
Proof.
  apply (keep_exempt_never_unreachable Demo.files ∅ Demo.specTs).
  exists ".test.ts". split; [simpl; tauto|vm_compute; reflexivity].
Defined.

(** ** The usage detector *)

Lemma scanExported_In (sf : SourceFile) (d : Node) (u : Unused.t) :
  In u (scanExported sf d) <->
  (isFunctionDeclaration d || isClassDeclaration d || isVariableDeclaration d) = true
  /\ (refCount d <= 1)%nat
  /\ u = exported sf d.
Proof.
  unfold scanExported.
  destruct (_ || _ || _); [|split; [intros []|intros [? _]; discriminate]].
  destruct (Nat.leb_spec (refCount d) 1) as [Hle|Hgt]; simpl.
  - split; [intros [<-|[]]; auto|]. intros (_ & _ & ->). now left.
  - split; [intros []|]. intros (_ & Hle & _). lia.
Qed.

Lemma scanDescendant_In (sf : SourceFile) (n : Node) (u : Unused.t) :
  In u (scanDescendant sf n) <->
  (refCount n <= 1)%nat
  /\ ((isFunctionDeclaration n && negb (isExported n) = true
       /\ u = local sf n ItemType.function)
      \/ (isClassDeclaration n && negb (isExported n) = true
          /\ u = local sf n ItemType.class)
      \/ (isVariableDeclaration n && negb (isExportedVar n) = true
          /\ u = local sf n ItemType.variable)
      \/ (isMethodDeclaration n = true /\ u = local sf n ItemType.method)).
Proof.
  unfold scanDescendant. rewrite !in_app_iff.
  destruct (Nat.leb_spec (refCount n) 1) as [Hle|Hgt].
  - destruct (isFunctionDeclaration n && negb (isExported n)),
             (isClassDeclaration n && negb (isExported n)),
             (isVariableDeclaration n && negb (isExportedVar n)),
             (isMethodDeclaration n); simpl; intuition (subst; auto; discriminate).
  - split.
    + destruct (isFunctionDeclaration n && negb (isExported n)),
               (isClassDeclaration n && negb (isExported n)),
               (isVariableDeclaration n && negb (isExportedVar n)),
               (isMethodDeclaration n); simpl; intuition.
    + intros [Hle _]. lia.
Qed.

Lemma unusedSymbolsOf_In (files : list SourceFile) (u : Unused.t) :
  In u (unusedSymbolsOf files) <->
  exists sf, In sf files
    /\ ((exists exp d, In exp (getExportedDeclarations sf) /\ In d (snd exp)
                       /\ In u (scanExported sf d))
        \/ (exists n, In n (descendants sf) /\ In u (scanDescendant sf n))).
Proof.
  unfold unusedSymbolsOf, unusedIn. rewrite in_flat_map.
  split; intros (sf & Hsf & H); exists sf; (split; [exact Hsf|]).
  - apply in_app_iff in H as [H|H].
    + left. apply in_flat_map in H as (exp & He & H).
      apply in_flat_map in H as (d & Hd & H). eauto.
    + right. apply in_flat_map in H as (n & Hn & H). eauto.
  - apply in_app_iff. destruct H as [(exp & d & He & Hd & H)|(n & Hn & H)].
    + left. apply in_flat_map. exists exp. split; [exact He|].
      apply in_flat_map. eauto.
    + right. apply in_flat_map. eauto.
Qed.

(** What an entry of [unusedSymbols] is made of. *)
Lemma unusedSymbolsOf_entry (files : list SourceFile) (u : Unused.t) :
  In u (unusedSymbolsOf files) ->
  In (Unused.file u) files
  /\ (refCount (Unused.node u) <= 1)%nat
  /\ ((exportedScope (Unused.file u) (Unused.node u)
       /\ Unused.confidence u = Finite double_0_95)
      \/ (localScope (Unused.file u) (Unused.node u)
          /\ Unused.confidence u = Finite double_0_9)).
Proof.
  intros H. apply unusedSymbolsOf_In in H as (sf & Hsf & H).
  destruct H as [(exp & d & He & Hd & H)|(n & Hn & H)].
  - apply scanExported_In in H as (Hk & Hle & ->). simpl.
    split; [exact Hsf|]. split; [exact Hle|]. left. split; [|reflexivity].
    split; [eauto|exact Hk].
  - apply scanDescendant_In in H as (Hle & H).
    assert (Unused.file u = sf /\ Unused.node u = n
            /\ Unused.confidence u = Finite double_0_9
            /\ localScope sf n) as (-> & -> & Hc & Hs).
    { unfold localScope.
      destruct H as [[Hk ->]|[[Hk ->]|[[Hk ->]|[Hk ->]]]]; simpl;
        rewrite Hk; repeat split; auto;
        repeat (rewrite orb_true_r || rewrite orb_true_l); reflexivity. }
    auto.
Qed.

Lemma unusedSymbolsOf_reason (files : list SourceFile) (u : Unused.t) :
  In u (unusedSymbolsOf files) -> Unused.reason u = Reason.no_refs.
Proof.
  intros H. apply unusedSymbolsOf_In in H as (sf & _ & H).
  destruct H as [(exp & d & _ & _ & H)|(n & _ & H)].
  - now apply scanExported_In in H as (_ & _ & ->).
  - apply scanDescendant_In in H as (_ & H).
    destruct H as [[_ ->]|[[_ ->]|[[_ ->]|[_ ->]]]]; reflexivity.
Qed.

Lemma exported_reported (files : list SourceFile) (sf : SourceFile) (d : Node) :
  In sf files -> exportedScope sf d -> (refCount d <= 1)%nat ->
  In (exported sf d) (unusedSymbolsOf files).
Proof.
  intros Hsf [(exp & He & Hd) Hk] Hle.
  apply unusedSymbolsOf_In. exists sf. split; [exact Hsf|]. left.
  exists exp, d. split; [exact He|]. split; [exact Hd|].
  apply scanExported_In. auto.
Qed.

Lemma local_reported (files : list SourceFile) (sf : SourceFile) (n : Node) :
  In sf files -> localScope sf n -> (refCount n <= 1)%nat ->
  exists type, In (local sf n type) (unusedSymbolsOf files).
Proof.
  intros Hsf [Hn Hk] Hle.
  assert (exists type, In (local sf n type) (scanDescendant sf n)) as [type Ht].
  { destruct (isFunctionDeclaration n && negb (isExported n)) eqn:E1;
      [exists ItemType.function; apply scanDescendant_In; auto 10|].
    destruct (isClassDeclaration n && negb (isExported n)) eqn:E2;
      [exists ItemType.class; apply scanDescendant_In; auto 10|].
    destruct (isVariableDeclaration n && negb (isExportedVar n)) eqn:E3;
      [exists ItemType.variable; apply scanDescendant_In; auto 10|].
    simpl in Hk. exists ItemType.method. apply scanDescendant_In. auto 10. }
  exists type. apply unusedSymbolsOf_In. exists sf. split; [exact Hsf|]. right. eauto.
Qed.

(** The number of references the detector tests is the reference count. *)
Lemma refCount_referenceCount (d : Node) : refCount d = referenceCount d.
Proof. unfold refCount, refs, referenceCount. apply length_concat. Qed.

(** C3, as stated, fails on [util.ts]: [inner] is an exported function
    declaration of the file with one reference, its declaration, and the
    scan of the file reports nothing; the file does not list [inner] among
    its exported declarations, and the scan of its nodes passes over what
    is marked exported. *)
Lemma exported_declaration_not_listed_not_reported :
  In Samples.utilTs [Samples.utilTs]
  /\ consideredScope Samples.utilTs Samples.inner
  /\ (isFunctionDeclaration Samples.inner && markedExported Samples.inner) = true
  /\ (referenceCount Samples.inner <= 1)%nat
  /\ ~ reportedUnused [Samples.utilTs] Samples.utilTs Samples.inner.
Proof.
  split; [now left|]. split; [split; [now left|reflexivity]|].
  split; [reflexivity|]. split; [vm_compute; lia|].
  intros (u & Hu & _). exact Hu.
Qed.

(** C3, amended. A declaration is reported as unused for a file exactly when
    the file is scanned, the reference count of the declaration, its own
    site included, is at most 1, and the declaration is a function, class or
    variable declaration that the file lists among its exported
    declarations, or a node of the file that is a function or class
    declaration not marked exported, a variable declaration whose statement
    is not exported, or a method declaration. *)
Theorem reported_iff_in_scope_with_at_most_one_reference
    (files : list SourceFile) (sf : SourceFile) (d : Node) :
  reportedUnused files sf d
  <-> In sf files
      /\ (exportedScope sf d \/ localScope sf d)
      /\ (referenceCount d <= 1)%nat.
Proof.
  rewrite <- refCount_referenceCount. split.
  - intros (u & Hu & <- & <-).
    apply unusedSymbolsOf_entry in Hu as (Hsf & Hle & Hscope).
    split; [exact Hsf|]. split; [|exact Hle].
    destruct Hscope as [[Hs _]|[Hs _]]; [now left|now right].
  - intros (Hsf & Hscope & Hle). destruct Hscope as [Hscope|Hscope].
    + exists (exported sf d). split; [|split; reflexivity].
      now apply exported_reported.
    + destruct (local_reported files sf d Hsf Hscope Hle) as [type Ht].
      exists (local sf d type). split; [exact Ht|split; reflexivity].
Qed.

(** In the demo the method [stale] of [index.ts], referenced at its
    declaration only, is reported. *)
Lemma reported_iff_in_scope_with_at_most_one_reference_witness :
  reportedUnused Demo.files Demo.indexTs Demo.stale.
Proof.
  apply (reported_iff_in_scope_with_at_most_one_reference Demo.files
           Demo.indexTs Demo.stale).
  split; [vm_compute; left; reflexivity|].
  split; [right; split; [simpl; tauto|reflexivity]|vm_compute; lia].
Defined.

(** ** What a scan inserts *)

Section Archiving.

Variables (git : Git) (opts : ScanOptions) (ttl : Z).

Lemma archiveFiles_world (l : list SourceFile) :
  forall w,
    let w' := fold_left (archiveFile git opts ttl) l w in
    ck_items w' = ck_items w
                  ++ fileDocs git opts ttl (clock w) (objectIds w)
                       (clockReads w) (objectIdsUsed w) l
    /\ clock w' = clock w /\ objectIds w' = objectIds w
    /\ clockReads w' = (clockReads w + length l)%nat
    /\ objectIdsUsed w' = (objectIdsUsed w + length l)%nat.
Proof.
  induction l as [|sf l IH]; intros w; simpl.
  - rewrite app_nil_r, !Nat.add_0_r. auto.
  - destruct (IH (archiveFile git opts ttl w sf)) as (H1 & H2 & H3 & H4 & H5).
    rewrite H1, H2, H3, H4, H5. clear.
    unfold archiveFile. simpl. destruct (opt_apply opts); simpl;
      rewrite <- app_assoc; simpl; repeat split; lia.
Qed.

Lemma archiveSymbols_world (l : list Unused.t) :
  forall w n,
    let st := fold_left (archiveSymbol git opts ttl) l (w, n) in
    ck_items (fst st) = ck_items w
                        ++ symbolDocs git opts ttl (clock w) (objectIds w)
                             (clockReads w) (objectIdsUsed w) (kept opts l)
    /\ clock (fst st) = clock w /\ objectIds (fst st) = objectIds w
    /\ snd st = (n + length (kept opts l))%nat.
Proof.
  induction l as [|u l IH]; intros w n; simpl.
  - rewrite app_nil_r, Nat.add_0_r. auto.
  - destruct (js_lt (Unused.confidence u) (opt_confidence opts)) eqn:Hlt; simpl.
    + apply IH.
    + match goal with
      | |- context [fold_left _ l (?w1, ?n1)] =>
          destruct (IH w1 n1) as (H1 & H2 & H3 & H4)
      end.
      rewrite H1, H2, H3, H4. clear.
      destruct (opt_apply opts); simpl;
        rewrite <- app_assoc; simpl; repeat split; lia.
Qed.

Lemma fileDocs_In (clk : nat -> Z) (ids : nat -> ObjectId) (l : list SourceFile) :
  forall reads used doc,
    In doc (fileDocs git opts ttl clk ids reads used l) ->
    exists k sf, In sf l
      /\ doc = (ids (used + k)%nat, fileItem git opts ttl (clk (reads + k)%nat) sf).
Proof.
  induction l as [|sf l IH]; simpl; intros reads used doc; [intros []|].
  intros [<-|H].
  - exists O, sf. rewrite !Nat.add_0_r. auto.
  - apply IH in H as (k & sf' & Hin & ->).
    exists (S k), sf'. rewrite !Nat.add_succ_r. auto.
Qed.

Lemma symbolDocs_In (clk : nat -> Z) (ids : nat -> ObjectId) (l : list Unused.t) :
  forall reads used doc,
    In doc (symbolDocs git opts ttl clk ids reads used l) ->
    exists k u, In u l
      /\ doc = (ids (used + k)%nat, symbolItem git opts ttl (clk (reads + k)%nat) u).
Proof.
  induction l as [|u l IH]; simpl; intros reads used doc; [intros []|].
  intros [<-|H].
  - exists O, u. rewrite !Nat.add_0_r. auto.
  - apply IH in H as (k & u' & Hin & ->).
    exists (S k), u'. rewrite !Nat.add_succ_r. auto.
Qed.

Lemma fileDocs_complete (clk : nat -> Z) (ids : nat -> ObjectId) (l : list SourceFile) :
  forall reads used sf,
    In sf l ->
    exists k, In (ids (used + k)%nat, fileItem git opts ttl (clk (reads + k)%nat) sf)
                 (fileDocs git opts ttl clk ids reads used l).
Proof.
  induction l as [|a l IH]; simpl; intros reads used sf; [intros []|].
  intros [->|H].
  - exists O. rewrite !Nat.add_0_r. now left.
  - destruct (IH (S reads) (S used) sf H) as [k Hk].
    exists (S k). rewrite !Nat.add_succ_r. now right.
Qed.

End Archiving.

(** A scan that is given a store URI returns, and its effect on the store is
    to append [scanDocs]. *)
Lemma scanCommand_result (project : Project) (git : Git) (opts : ScanOptions)
    (w : World) :
  JSString.truthy (opt_mongo opts) = true ->
  exists reachable,
    reachableFrom
      (entryFilesOf project opts (sourceFilesIn project (opt_srcDir opts)))
      (sourceByPathOf (sourceFilesIn project (opt_srcDir opts))) = Some reachable
    /\ fst (scanCommand project git opts w) = Returned
    /\ ck_items (snd (scanCommand project git opts w))
       = ck_items w ++ scanDocs project git opts w reachable.
Proof.
  intros Hmongo. unfold scanCommand. rewrite Hmongo. simpl.
  destruct (reachableFrom_total
              (entryFilesOf project opts (sourceFilesIn project (opt_srcDir opts)))
              (sourceByPathOf (sourceFilesIn project (opt_srcDir opts))))
    as [R HR].
  exists R. split; [exact HR|]. rewrite HR.
  match goal with
  | |- context [fold_left (archiveSymbol ?g ?o ?t) ?l (?w1, ?n1)] =>
      pose proof (archiveSymbols_world g o t l w1 n1) as Hsym;
      destruct (fold_left (archiveSymbol g o t) l (w1, n1)) as [w2 n2]
  end.
  simpl in Hsym. destruct Hsym as (H1 & _).
  match type of H1 with
  | context [fold_left (archiveFile ?g ?o ?t) ?l ?w1] =>
      destruct (archiveFiles_world g o t l w1) as (F1 & F2 & F3 & F4 & F5)
  end.
  rewrite F1, F2, F3, F4, F5 in H1. simpl in H1.
  split; [destruct (opt_apply opts); reflexivity|].
  assert (forall w0, ck_items (if opt_apply opts then log RunGitDiff w0 else w0)
                     = ck_items w0) as Hlog
    by (intros; destruct (opt_apply opts); reflexivity).
  simpl. rewrite Hlog. simpl. rewrite H1.
  unfold scanDocs. rewrite <- app_assoc. reflexivity.
Qed.

(** ** The codecs *)

Lemma allFrom_spec (n : nat) (f : Z -> bool) :
  forall from, allFrom n f from = true ->
               forall z, from <= z < from + Z.of_nat n -> f z = true.
Proof.
  induction n as [|n IH]; intros from H z Hz; [lia|].
  simpl in H. apply andb_true_iff in H as [H0 H].
  destruct (Z.eq_dec z from) as [->|Hne]; [exact H0|].
  apply (IH (from + 1) H). lia.
Qed.

Module Utf8Facts.
Import Utf8.

(** The machine reads the encoding of a surrogate pair as the pair, and is
    back in its initial state. *)
Lemma run_pair (hi lo : Z) :
  isHighSurrogate hi = true -> isLowSurrogate lo = true ->
  run initial (encodeCodePoint (pairCodePoint hi lo)) = (initial, [hi; lo])
  /\ Forall isByte (encodeCodePoint (pairCodePoint hi lo)).
Proof.
  unfold isHighSurrogate, isLowSurrogate. intros Hhi Hlo. to_arith.
  assert (Hcp : 0x10000 <= pairCodePoint hi lo < 0x110000)
    by (unfold pairCodePoint; lia).
  assert (Hemit : emit (pairCodePoint hi lo) = [hi; lo]).
  { unfold emit. branch. unfold pairCodePoint. f_equal; [|f_equal]; divlia. }
  revert Hemit Hcp. generalize (pairCodePoint hi lo) as cp. intros cp Hemit Hcp.
  unfold encodeCodePoint. repeat branch. split.
  - unfold run, step, lead, continuation. registers.
    repeat branch.
    all: match goal with
         | |- context [emit ?x] => replace x with cp by divlia
         end; rewrite Hemit; reflexivity.
  - unfold isByte, continuation. repeat constructor; divlia.
Qed.

(** The same for a code unit that is not a surrogate. *)
Lemma run_unit (u : Z) :
  0 <= u < 65536 -> isHighSurrogate u = false -> isLowSurrogate u = false ->
  run initial (encodeCodePoint u) = (initial, [u])
  /\ Forall isByte (encodeCodePoint u).
Proof.
  unfold isHighSurrogate, isLowSurrogate. intros Hu Hhi Hlo.
  unfold encodeCodePoint. repeat branch.
  all: split; [|unfold isByte, continuation; repeat constructor; divlia].
  all: unfold run, step, lead, continuation; registers.
  all: repeat branch.
  all: try reflexivity.
  all: match goal with
       | |- context [emit ?x] => replace x with u by divlia
       end; unfold emit; branch; reflexivity.
Qed.

Lemma decodeFrom_app (bs bs' : bytes) :
  forall st,
    decodeFrom st (bs ++ bs')
    = (let '(st', out) := run st bs in out ++ decodeFrom st' bs').
Proof.
  induction bs as [|b bs IH]; intros st; simpl; [reflexivity|].
  destruct (step st b) as [st1 out1]. rewrite IH.
  destruct (run st1 bs) as [st2 out2]. now rewrite app_assoc.
Qed.

Lemma run_decode (bs rest : bytes) (t : text) :
  run initial bs = (initial, t) ->
  decodeFrom initial (bs ++ rest) = t ++ decodeFrom initial rest.
Proof. intros H. now rewrite decodeFrom_app, H. Qed.

(** What [wellFormed] says of a text that is not empty. *)
Lemma wellFormed_cons (u : Z) (rest : text) :
  wellFormed (u :: rest) = true ->
  0 <= u < 65536
  /\ ((isHighSurrogate u = true
       /\ exists v rest', rest = v :: rest' /\ isLowSurrogate v = true
                          /\ wellFormed rest' = true)
      \/ (isHighSurrogate u = false /\ isLowSurrogate u = false
          /\ wellFormed rest = true)).
Proof.
  simpl. intros H. apply andb_true_iff in H as [Hr H].
  apply andb_true_iff in Hr as [H0 H1]. apply Z.leb_le in H0, H1.
  split; [lia|].
  destruct (isHighSurrogate u).
  - left. split; [reflexivity|]. destruct rest as [|v rest']; [discriminate|].
    apply andb_true_iff in H as [Hv H]. eauto.
  - right. apply andb_true_iff in H as [Hl H].
    apply negb_true_iff in Hl. auto.
Qed.

Lemma utf8_round_trip_bounded (n : nat) :
  forall t, (length t <= n)%nat -> wellFormed t = true ->
            decode (encode t) = t /\ Forall isByte (encode t).
Proof.
  unfold decode.
  induction n as [|n IH]; intros [|u rest] Hlen Hwf; simpl in Hlen;
    try (split; [reflexivity|constructor]); try lia.
  apply wellFormed_cons in Hwf as [Hu [(Hhi & v & rest' & -> & Hlo & Hwf)|(Hhi & Hlo & Hwf)]].
  - simpl. rewrite Hhi, Hlo.
    destruct (run_pair u v Hhi Hlo) as [Hrun Hby].
    destruct (IH rest') as [IH1 IH2]; [simpl in Hlen; lia|exact Hwf|].
    split.
    + rewrite (run_decode _ _ _ Hrun), IH1. reflexivity.
    + apply Forall_app. split; [exact Hby|exact IH2].
  - simpl. rewrite Hhi, Hlo.
    destruct (run_unit u Hu Hhi Hlo) as [Hrun Hby].
    destruct (IH rest) as [IH1 IH2]; [lia|exact Hwf|].
    split.
    + rewrite (run_decode _ _ _ Hrun), IH1. reflexivity.
    + apply Forall_app. split; [exact Hby|exact IH2].
Qed.

(** Decoding the UTF-8 encoding of a well-formed text gives it back. *)
Lemma utf8_decode_encode (t : text) :
  wellFormed t = true -> decode (encode t) = t.
Proof. intros H. now apply (utf8_round_trip_bounded (length t)). Qed.

Lemma utf8_encode_bytes (t : text) :
  wellFormed t = true -> Forall isByte (encode t).
Proof. intros H. now apply (utf8_round_trip_bounded (length t)). Qed.

End Utf8Facts.

Module Base64Facts.
Import Base64.

Lemma sextetOk_all (n : Z) : 0 <= n < 64 -> sextetOk n = true.
Proof.
  intros Hn. apply (allFrom_spec (Z.to_nat 64) sextetOk 0); [|lia].
  vm_compute. reflexivity.
Qed.

Lemma sextets_sextetChar (n : Z) (s : string) :
  0 <= n < 64 -> sextets (String (sextetChar n) s) = n :: sextets s.
Proof.
  intros Hn. pose proof (sextetOk_all n Hn) as H. unfold sextetOk in H.
  apply andb_true_iff in H as [Hpad Hval]. apply negb_true_iff in Hpad.
  simpl. rewrite Hpad.
  destruct (unbase64 (sextetChar n)) as [v|]; [|discriminate].
  apply Z.eqb_eq in Hval. now subst.
Qed.

Lemma sextets_pad (s : string) : sextets (String pad s) = [].
Proof. reflexivity. Qed.

Lemma base64_round_trip_bounded (n : nat) :
  forall bs, (length bs <= n)%nat -> Forall isByte bs -> decode (encode bs) = bs.
Proof.
  unfold decode, isByte.
  induction n as [|n IH]; intros bs Hlen Hbs.
  - destruct bs; [reflexivity|simpl in Hlen; lia].
  - destruct bs as [|a [|b [|c rest]]]; [reflexivity| | |].
    + apply Forall_cons_1 in Hbs as [Ha _].
      cbn [encode]. rewrite !sextets_sextetChar, sextets_pad by (try lia; Z.to_euclidean_division_equations; lia).
      cbn [group]. f_equal. Z.to_euclidean_division_equations; lia.
    + apply Forall_cons_1 in Hbs as [Ha Hbs]. apply Forall_cons_1 in Hbs as [Hb _].
      cbn [encode]. rewrite !sextets_sextetChar, sextets_pad by (Z.to_euclidean_division_equations; lia).
      cbn [group]. repeat f_equal; Z.to_euclidean_division_equations; lia.
    + apply Forall_cons_1 in Hbs as [Ha Hbs]. apply Forall_cons_1 in Hbs as [Hb Hbs].
      apply Forall_cons_1 in Hbs as [Hc Hbs].
      cbn [encode]. rewrite !sextets_sextetChar by (Z.to_euclidean_division_equations; lia).
      cbn [group]. rewrite IH; [|simpl in Hlen; lia|exact Hbs].
      repeat f_equal; Z.to_euclidean_division_equations; lia.
Qed.

(** Decoding the base64 encoding of a byte sequence gives it back. *)
Lemma base64_decode_encode (bs : bytes) : Forall isByte bs -> decode (encode bs) = bs.
Proof. apply (base64_round_trip_bounded (length bs)). lia. Qed.

End Base64Facts.

(** [restoreCommand] undoes [toB64] on well-formed text. *)
Lemma fromB64_toB64 (t : text) : Utf8.wellFormed t = true -> fromB64 (toB64 t) = t.
Proof.
  intros H. unfold fromB64, toB64.
  rewrite Base64Facts.base64_decode_encode by now apply Utf8Facts.utf8_encode_bytes.
  now apply Utf8Facts.utf8_decode_encode.
Qed.

(** ** Confidence *)



(** ** Expiry *)

(** C7, as stated, fails on the demo: the item archived for [legacy.ts] is
    created 5 ms after the clock was read for [ttl], so its [expiresAt] is
    not its [createdAt] plus 90 days. *)
Lemma expiry_is_not_creation_plus_90_days :
  ~ (forall doc,
       In doc (ck_items (snd (scanCommand Demo.project Demo.git Demo.options
                                Demo.world))) ->
       ArchiveItem.expiresAt (snd doc)
       = ArchiveItem.createdAt (snd doc) + 90 * (24 * 60 * 60 * 1000)).
Proof.
  intros H.
  specialize (H (Demo.objectId 0,
                 fileItem Demo.git Demo.options (1700000000000 + ttlMilliseconds)
                   1700000000005 Demo.legacyTs)).
  assert (1707776000000 = 1700000000005 + 90 * (24 * 60 * 60 * 1000)) as Habs.
  { apply H. vm_compute. left. reflexivity. }
  discriminate Habs.
Qed.

(** C7, amended. Every item a scan inserts expires 90 days, the default of
    [ttlDays], after the one reading of the clock the scan takes just before
    it starts archiving; the creation time of the item is a later reading of
    its own.  So, when the clock does not go back, an item expires at most
    90 days after its creation. *)
Theorem expiry_is_scan_start_plus_90_days (project : Project) (git : Git)
    (opts : ScanOptions) (w : World) :
  JSString.truthy (opt_mongo opts) = true ->
  exists added,
    ck_items (snd (scanCommand project git opts w)) = ck_items w ++ added
    /\ (forall doc, In doc added ->
          ArchiveItem.expiresAt (snd doc)
          = clock w (clockReads w) + 90 * (24 * 60 * 60 * 1000)
          /\ exists k, ArchiveItem.createdAt (snd doc)
                       = clock w (clockReads w + S k)%nat)
    /\ ((forall i j, (i <= j)%nat -> clock w i <= clock w j) ->
        forall doc, In doc added ->
          ArchiveItem.expiresAt (snd doc)
          <= ArchiveItem.createdAt (snd doc) + 90 * (24 * 60 * 60 * 1000)).
Proof.
  intros Hmongo.
  destruct (scanCommand_result project git opts w Hmongo) as (R & _ & _ & Hitems).
  exists (scanDocs project git opts w R). split; [exact Hitems|].
  assert (Hdates : forall doc, In doc (scanDocs project git opts w R) ->
            ArchiveItem.expiresAt (snd doc)
            = clock w (clockReads w) + 90 * (24 * 60 * 60 * 1000)
            /\ exists k, ArchiveItem.createdAt (snd doc)
                         = clock w (clockReads w + S k)%nat).
  { intros doc Hdoc. unfold scanDocs in Hdoc.
    apply in_app_or in Hdoc as [Hdoc|Hdoc].
    - apply fileDocs_In in Hdoc as (k & sf & _ & ->). simpl.
      split; [unfold ttlMilliseconds; lia|]. exists k. f_equal. lia.
    - apply symbolDocs_In in Hdoc as (k & u & _ & ->). simpl.
      split; [unfold ttlMilliseconds; lia|].
      exists (length (unreachableOf (sourceFilesIn project (opt_srcDir opts)) R) + k)%nat.
      f_equal. lia. }
  split; [exact Hdates|].
  intros Hclock doc Hdoc. destruct (Hdates doc Hdoc) as [Hexp [k Hk]].
  rewrite Hexp, Hk. specialize (Hclock (clockReads w) (clockReads w + S k)%nat).
  lia.
Qed.

Lemma expiry_is_scan_start_plus_90_days_witness :
  exists added,
    ck_items (snd (scanCommand Demo.project Demo.git Demo.options Demo.world))
    = ck_items Demo.world ++ added
    /\ (forall doc, In doc added ->
          ArchiveItem.expiresAt (snd doc)
          = clock Demo.world (clockReads Demo.world) + 90 * (24 * 60 * 60 * 1000)
          /\ exists k, ArchiveItem.createdAt (snd doc)
                       = clock Demo.world (clockReads Demo.world + S k)%nat)
    /\ ((forall i j, (i <= j)%nat -> clock Demo.world i <= clock Demo.world j) ->
        forall doc, In doc added ->
          ArchiveItem.expiresAt (snd doc)
          <= ArchiveItem.createdAt (snd doc) + 90 * (24 * 60 * 60 * 1000)).
Proof.
  apply (expiry_is_scan_start_plus_90_days Demo.project Demo.git Demo.options
           Demo.world).
  reflexivity.
Defined.

(** ** Restoring *)

Lemma findOne_In (docs : list (ObjectId * ArchiveItem.t)) (id : ObjectId)
    (item : ArchiveItem.t) :
  NoDup (List.map fst docs) -> In (id, item) docs -> findOne id docs = Some item.
Proof.
  induction docs as [|[k x] docs IH]; simpl; [intros _ []|].
  intros Hnd Hin. apply NoDup_cons in Hnd as [Hk Hnd].
  destruct (String.eqb k id) eqn:E.
  - apply String.eqb_eq in E. subst k.
    destruct Hin as [[= ->]|Hin]; [reflexivity|].
    exfalso. apply Hk. apply list_elem_of_In.
    change id with (fst (id, item)). now apply in_map.
  - apply String.eqb_neq in E.
    destruct Hin as [[= -> ->]|Hin]; [congruence|]. now apply IH.
Qed.

(** Restoring a stored item whose content is [toB64 C]. *)
Lemma restoreCommand_found (resolve : string -> string) (id : ObjectId)
    (item : ArchiveItem.t) (C : text) (opts : RestoreOptions) (w : World) :
  JSString.truthy (ropt_mongo opts) = true ->
  newObjectId id = Some id ->
  findOne id (ck_items w) = Some item ->
  fromB64 (ArchiveItem.content_base64 item) = C ->
  restoreCommand resolve id opts w
  = match outputOf opts with
    | Some output =>
        (Returned,
         log (RestoredTo (ArchiveItem.type item) (nameOrFile item) (resolve output))
           (writeFileSync (resolve output) C w))
    | None => (Returned, printRestored item C w)
    end.
Proof.
  intros Hmongo Hid Hfind HC. unfold restoreCommand.
  rewrite Hmongo, Hid, Hfind, HC. simpl. destruct (outputOf opts); reflexivity.
Qed.

Lemma unused_node_text (files : list SourceFile) (u : Unused.t) :
  wellFormedSources files -> In u (unusedSymbolsOf files) ->
  Utf8.wellFormed (getText (Unused.node u)) = true.
Proof.
  intros Hwf Hu. apply unusedSymbolsOf_entry in Hu as (Hsf & _ & Hscope).
  destruct (Hwf _ Hsf) as [_ Hnodes]. apply Hnodes. unfold nodesOf.
  apply in_or_app.
  destruct Hscope as [[[(exp & He & Hd) _] _]|[[Hn _] _]]; [left|now right].
  apply in_flat_map. eauto.
Qed.

(** C5. An item a scan inserts holds the base64 of its original text [C],
    the full text of an unreachable file or the text of an unused node;
    restoring the item by its identifier gives [C] back, printed or written
    to the output path, and leaves the store as it is, so that restoring
    again gives [C] again.  Source text is well-formed UTF-16; the store
    keeps its identifiers distinct, each of 24 lower-case hexadecimal
    digits. *)
Theorem restore_round_trip (project : Project) (git : Git) (opts : ScanOptions)
    (w : World) :
  JSString.truthy (opt_mongo opts) = true ->
  wellFormedSources (sourceFilesIn project (opt_srcDir opts)) ->
  NoDup (List.map fst (ck_items (snd (scanCommand project git opts w)))) ->
  Forall (fun doc => newObjectId (fst doc) = Some (fst doc))
    (ck_items (snd (scanCommand project git opts w))) ->
  let files := sourceFilesIn project (opt_srcDir opts) in
  let w' := snd (scanCommand project git opts w) in
  exists added,
    ck_items w' = ck_items w ++ added
    /\ forall id item, In (id, item) added ->
         exists C,
           ArchiveItem.content_base64 item = toB64 C
           /\ ((exists sf, In sf files /\ C = getFullText sf
                           /\ ArchiveItem.type item = ItemType.file
                           /\ ArchiveItem.path item = rel sf (opt_srcDir opts))
               \/ (exists u, In u (unusedSymbolsOf files)
                             /\ C = getText (Unused.node u)
                             /\ ArchiveItem.name item = Some (Unused.name u)))
           /\ forall resolve ropts w2,
                JSString.truthy (ropt_mongo ropts) = true ->
                ck_items w2 = ck_items w' ->
                let r := restoreCommand resolve id ropts w2 in
                fst r = Returned
                /\ ck_items (snd r) = ck_items w'
                /\ match outputOf ropts with
                   | Some output =>
                       disk (snd r) !! resolve output = Some C
                   | None =>
                       console (snd r)
                       = console w2
                         ++ [RestoredFrom (ArchiveItem.type item) (nameOrFile item)
                               (ArchiveItem.path item);
                             Rule 50; Content C; Rule 50]
                       /\ disk (snd r) = disk w2
                   end.
Proof.
  intros Hmongo Hwf Hnd Hids files w'.
  destruct (scanCommand_result project git opts w Hmongo) as (R & _ & _ & Hitems).
  fold w' in Hitems, Hnd, Hids.
  exists (scanDocs project git opts w R). split; [exact Hitems|].
  intros id item Hin.
  assert (exists C,
            Utf8.wellFormed C = true
            /\ ArchiveItem.content_base64 item = toB64 C
            /\ ((exists sf, In sf files /\ C = getFullText sf
                            /\ ArchiveItem.type item = ItemType.file
                            /\ ArchiveItem.path item = rel sf (opt_srcDir opts))
                \/ (exists u, In u (unusedSymbolsOf files)
                              /\ C = getText (Unused.node u)
                              /\ ArchiveItem.name item = Some (Unused.name u))))
    as (C & HC & Hb64 & Horigin).
  { unfold scanDocs in Hin. apply in_app_or in Hin as [Hin|Hin].
    - apply fileDocs_In in Hin as (k & sf & Hsf & [= _ ->]).
      unfold unreachableOf in Hsf. apply filter_In in Hsf as [Hsf _].
      exists (getFullText sf). split; [now apply Hwf|]. split; [reflexivity|].
      left. exists sf. auto.
    - apply symbolDocs_In in Hin as (k & u & Hu & [= _ ->]).
      unfold kept in Hu. apply filter_In in Hu as [Hu _].
      exists (getText (Unused.node u)).
      split; [now apply (unused_node_text files)|]. split; [reflexivity|].
      right. exists u. auto. }
  exists C. split; [exact Hb64|]. split; [exact Horigin|].
  intros resolve ropts w2 Hm2 Hstore r.
  assert (Hdoc : In (id, item) (ck_items w'))
    by (rewrite Hitems; apply in_or_app; now right).
  assert (Hrun : r = match outputOf ropts with
                     | Some output =>
                         (Returned,
                          log (RestoredTo (ArchiveItem.type item) (nameOrFile item)
                                 (resolve output))
                            (writeFileSync (resolve output) C w2))
                     | None => (Returned, printRestored item C w2)
                     end).
  { apply restoreCommand_found.
    - exact Hm2.
    - rewrite Forall_forall in Hids. apply (Hids (id, item)).
      now apply list_elem_of_In.
    - rewrite Hstore. now apply findOne_In.
    - rewrite Hb64. now apply fromB64_toB64. }
  rewrite Hrun. destruct (outputOf ropts) as [output|]; simpl.
  - split; [reflexivity|]. split; [exact Hstore|]. apply lookup_insert_eq.
  - split; [reflexivity|]. split; [exact Hstore|].
    split; [|reflexivity]. rewrite <- !app_assoc. reflexivity.
Qed.

Lemma restore_round_trip_witness :
  exists added,
    ck_items (snd (scanCommand Demo.project Demo.git Demo.options Demo.world))
    = ck_items Demo.world ++ added
    /\ forall id item, In (id, item) added ->
         exists C,
           ArchiveItem.content_base64 item = toB64 C
           /\ ((exists sf, In sf Demo.files /\ C = getFullText sf
                           /\ ArchiveItem.type item = ItemType.file
                           /\ ArchiveItem.path item = rel sf "src")
               \/ (exists u, In u (unusedSymbolsOf Demo.files)
                             /\ C = getText (Unused.node u)
                             /\ ArchiveItem.name item = Some (Unused.name u)))
           /\ forall resolve ropts w2,
                JSString.truthy (ropt_mongo ropts) = true ->
                ck_items w2
                = ck_items (snd (scanCommand Demo.project Demo.git Demo.options
                                   Demo.world)) ->
                let r := restoreCommand resolve id ropts w2 in
                fst r = Returned
                /\ ck_items (snd r)
                   = ck_items (snd (scanCommand Demo.project Demo.git Demo.options
                                      Demo.world))
                /\ match outputOf ropts with
                   | Some output =>
                       disk (snd r) !! resolve output = Some C
                   | None =>
                       console (snd r)
                       = console w2
                         ++ [RestoredFrom (ArchiveItem.type item) (nameOrFile item)
                               (ArchiveItem.path item);
                             Rule 50; Content C; Rule 50]
                       /\ disk (snd r) = disk w2
                   end.
Proof.
  apply (restore_round_trip Demo.project Demo.git Demo.options Demo.world).
  - reflexivity.
  - intros sf Hsf. vm_compute in Hsf. in_cases Hsf;
      (split; [vm_compute; reflexivity|]);
      intros n Hn; vm_compute in Hn; in_cases Hn; vm_compute; reflexivity.
  - apply (bool_decide_unpack _). vm_compute. exact I.
  - apply (bool_decide_unpack _). vm_compute. exact I.
Defined.

(** Restoring the item of [dead.ts] after the scan of the demo prints its
    text. *)
Example demo_restore_prints_the_file :
  console (snd (restoreCommand Demo.resolve "65a1b2c3d4e5f60718293001"
                  Demo.restoreOptions
                  (snd (scanCommand Demo.project Demo.git Demo.options Demo.world))))
  = console (snd (scanCommand Demo.project Demo.git Demo.options Demo.world))
    ++ [RestoredFrom ItemType.file "file" "src/dead.ts"; Rule 50;
        Content (getFullText Demo.deadTs); Rule 50].
Proof. vm_compute. reflexivity. Qed.

(** A lone surrogate does not survive the encoding: it comes back as
    U+FFFD.  Text read from a UTF-8 file holds none. *)
Example lone_surrogate_is_replaced :
  Utf8.wellFormed [0x61; 0xD800] = false
  /\ fromB64 (toB64 [0x61; 0xD800]) = [0x61; 0xFFFD].
Proof. split; vm_compute; reflexivity. Qed.

(** ** The threshold *)

(** The loop over the symbols skips what is below the threshold. *)
Lemma symbols_respect_threshold (project : Project) (git : Git)
    (opts : ScanOptions) (w : World) (reachable : gset string)
    (doc : ObjectId * ArchiveItem.t) :
  In doc (scanDocs project git opts w reachable) ->
  ArchiveItem.reason (snd doc) = Reason.no_refs ->
  js_lt (ArchiveItem.confidence (snd doc)) (opt_confidence opts) = false.
Proof.
  unfold scanDocs. intros Hdoc Hreason. apply in_app_or in Hdoc as [Hdoc|Hdoc].
  - apply fileDocs_In in Hdoc as (k & sf & _ & ->). discriminate Hreason.
  - apply symbolDocs_In in Hdoc as (k & u & Hu & ->). simpl.
    unfold kept in Hu. apply filter_In in Hu as [_ Hu].
    now apply negb_true_iff in Hu.
Qed.

(** C1: the code departs from the claim.  With the threshold 1.0 the scan of
    the demo inserts the two unreachable files, whose confidence 0.98 is
    below the threshold; the loop over the unreachable files has no test of
    the confidence, the loop over the symbols has one. *)
Theorem unreachable_file_archived_below_threshold :
  List.map (fun doc => (ArchiveItem.path (snd doc), ArchiveItem.reason (snd doc),
                        ArchiveItem.confidence (snd doc)))
    (ck_items (snd (scanCommand Demo.project Demo.git
                      (Demo.withConfidence (Finite 1) Demo.options) Demo.world)))
  = [("src/legacy.ts", Reason.unreachable_file, Finite double_0_98);
     ("src/dead.ts", Reason.unreachable_file, Finite double_0_98)]
  /\ js_lt (Finite double_0_98) (Finite 1) = true.
Proof. split; vm_compute; reflexivity. Qed.

(** ** Which files the usage detector reads *)

(** C2: the code departs from the claim.  In the demo [dead.ts] is outside
    the reachable set, and its unused function [orphan] is reported and
    archived all the same: the loop runs over [files], not over the
    reachable ones. *)
Theorem unused_symbol_reported_outside_reachable :
  (exists reachable,
     reachableFrom Demo.entryFiles (sourceByPathOf Demo.files) = Some reachable
     /\ norm Demo.deadTs ∉ reachable)
  /\ In (exported Demo.deadTs Demo.orphan) (unusedSymbolsOf Demo.files)
  /\ List.map (fun doc => (ArchiveItem.path (snd doc), ArchiveItem.name (snd doc)))
       (ck_items (snd (scanCommand Demo.project Demo.git Demo.options Demo.world)))
     = [("src/legacy.ts", None); ("src/dead.ts", None);
        ("src/index.ts", Some "stale"); ("src/dead.ts", Some "orphan")].
Proof.
  split; [|split].
  - assert (H : match reachableFrom Demo.entryFiles (sourceByPathOf Demo.files) with
                | Some reachable => bool_decide (norm Demo.deadTs ∈ reachable)
                | None => true
                end = false) by (vm_compute; reflexivity).
    destruct (reachableFrom Demo.entryFiles (sourceByPathOf Demo.files)) as [R|];
      [|discriminate H].
    exists R. split; [reflexivity|]. now apply bool_decide_eq_false in H.
  - vm_compute. tauto.
  - vm_compute. reflexivity.
Qed.

(** ** Apply mode *)

(** In apply mode an archived unreachable file is removed and reported as
    deleted. *)
Lemma archiveFile_apply (git : Git) (opts : ScanOptions) (ttl : Z) (w : World)
    (sf : SourceFile) :
  opt_apply opts = true ->
  let w' := archiveFile git opts ttl w sf in
  disk w' = delete (getFilePath sf) (disk w)
  /\ console w'
     = console w
       ++ [FileArchived (rel sf (opt_srcDir opts)) (objectIds w (objectIdsUsed w));
           Deleted].
Proof.
  intros Happly. unfold archiveFile. rewrite Happly. simpl.
  split; [reflexivity|]. now rewrite <- app_assoc.
Qed.

(** In apply mode an archived symbol is reported as not removed, and its
    file is saved with the text the project holds for it. *)
Lemma archiveSymbol_apply (git : Git) (opts : ScanOptions) (ttl : Z) (w : World)
    (n : nat) (u : Unused.t) :
  opt_apply opts = true ->
  js_lt (Unused.confidence u) (opt_confidence opts) = false ->
  let w' := fst (archiveSymbol git opts ttl (w, n) u) in
  disk w' = <[getFilePath (Unused.file u) := getFullText (Unused.file u)]> (disk w)
  /\ console w'
     = console w
       ++ [SymbolArchived (Unused.type u) (Unused.name u)
             (rel (Unused.file u) (opt_srcDir opts)) (objectIds w (objectIdsUsed w));
           NodeRemovalNotImplemented; Archived].
Proof.
  intros Happly Hlt. unfold archiveSymbol. rewrite Hlt, Happly. simpl.
  split; [reflexivity|]. now rewrite <- !app_assoc.
Qed.

(** C6: the code departs from the claim.  In the demo [dead.ts] is archived
    as an unreachable file and removed, and then written back when its
    unused function [orphan] is archived, since [saveSync] runs on the file
    of every archived symbol: after the scan the file is on disk again.
    [legacy.ts], which holds no unused symbol, stays removed. *)
Theorem deleted_file_written_back :
  console (snd (scanCommand Demo.project Demo.git (Demo.withApply Demo.options)
                  Demo.world))
  = [ScanningFor "src"; RepositoryIs "https://example.org/demo.git";
     CommitIs "0123456789abcdef0123456789abcdef01234567";
     ArchivingUnreachableFiles 2;
     FileArchived "src/legacy.ts" "65a1b2c3d4e5f60718293000"; Deleted;
     FileArchived "src/dead.ts" "65a1b2c3d4e5f60718293001"; Deleted;
     ArchivingUnusedSymbols 2;
     SymbolArchived ItemType.method "stale" "src/index.ts" "65a1b2c3d4e5f60718293002";
     NodeRemovalNotImplemented; Archived;
     SymbolArchived ItemType.function "orphan" "src/dead.ts" "65a1b2c3d4e5f60718293003";
     NodeRemovalNotImplemented; Archived; Finished 4; RunGitDiff]
  /\ disk (snd (scanCommand Demo.project Demo.git (Demo.withApply Demo.options)
                  Demo.world)) !! "/proj/src/dead.ts"
     = Some (getFullText Demo.deadTs)
  /\ disk (snd (scanCommand Demo.project Demo.git (Demo.withApply Demo.options)
                  Demo.world)) !! "/proj/src/legacy.ts"
     = None.
Proof. repeat split; vm_compute; reflexivity. Qed.

(** ** Restoring an identifier that is not stored *)

(** An identifier of the right form that is not in the store is reported as
    not found; the command exits with code 1 and writes no file. *)
Lemma restore_absent_id_not_found (resolve : string -> string) (id : string)
    (oid : ObjectId) (opts : RestoreOptions) (w : World) :
  JSString.truthy (ropt_mongo opts) = true ->
  newObjectId id = Some oid ->
  findOne oid (ck_items w) = None ->
  restoreCommand resolve id opts w = (Exited 1, log (ItemNotFound id) w)
  /\ disk (log (ItemNotFound id) w) = disk w.
Proof.
  intros Hmongo Hid Hfind. unfold restoreCommand.
  rewrite Hmongo, Hid, Hfind. split; reflexivity.
Qed.

(** C9: the code departs from the claim.  [nonexistent-id] is not made of 24
    hexadecimal digits, so [new ObjectId(id)] throws before the store is
    asked: nothing is reported as not found, and the command ends by the
    exception instead of [process.exit(1)]. *)
Theorem restore_malformed_id_throws (resolve : string -> string)
    (output : option string) (db : string) (w : World) :
  restoreCommand resolve "nonexistent-id"
    {| ropt_output := output; ropt_mongo := "mongodb://localhost:27017";
       ropt_db := db |} w
  = (Thrown objectIdError, w).
Proof. reflexivity. Qed.

(** * Further properties *)

(** ** What a scan prints and writes *)

Section Transcript.

Variables (git : Git) (opts : ScanOptions) (ttl : Z).

Lemma archiveFiles_console (l : list SourceFile) :
  forall w,
    console (fold_left (archiveFile git opts ttl) l w)
    = console w ++ fileMessages opts (objectIds w) (objectIdsUsed w) l.
Proof.
  induction l as [|sf l IH]; intros w; simpl; [now rewrite app_nil_r|].
  rewrite IH. unfold archiveFile. simpl.
  destruct (opt_apply opts); simpl; rewrite <- !app_assoc; reflexivity.
Qed.

Lemma archiveSymbols_console (l : list Unused.t) :
  forall w n,
    console (fst (fold_left (archiveSymbol git opts ttl) l (w, n)))
    = console w
      ++ symbolMessages opts (objectIds w) (objectIdsUsed w) (kept opts l).
Proof.
  induction l as [|u l IH]; intros w n; simpl; [now rewrite app_nil_r|].
  destruct (js_lt (Unused.confidence u) (opt_confidence opts)); simpl; [apply IH|].
  rewrite IH. destruct (opt_apply opts); simpl; rewrite <- !app_assoc; reflexivity.
Qed.

(** Without [--apply] the loops leave the disk alone. *)
Lemma archiveFiles_report (l : list SourceFile) :
  opt_apply opts = false ->
  forall w, disk (fold_left (archiveFile git opts ttl) l w) = disk w.
Proof.
  intros Hreport. induction l as [|sf l IH]; intros w; simpl; [reflexivity|].
  rewrite IH. unfold archiveFile. rewrite Hreport. reflexivity.
Qed.

Lemma archiveSymbols_report (l : list Unused.t) :
  opt_apply opts = false ->
  forall w n, disk (fst (fold_left (archiveSymbol git opts ttl) l (w, n))) = disk w.
Proof.
  intros Hreport. induction l as [|u l IH]; intros w n; simpl; [reflexivity|].
  destruct (js_lt (Unused.confidence u) (opt_confidence opts)); simpl; [apply IH|].
  rewrite IH, Hreport. reflexivity.
Qed.

(** With [--apply] the first loop removes the unreachable files. *)
Lemma archiveFiles_apply_disk (l : list SourceFile) :
  opt_apply opts = true ->
  forall w p,
    disk (fold_left (archiveFile git opts ttl) l w) !! p
    = if bool_decide (p ∈ removedPaths l) then None else disk w !! p.
Proof.
  intros Happly. induction l as [|sf l IH]; intros w p.
  - rewrite bool_decide_eq_false_2; [reflexivity|]. apply not_elem_of_nil.
  - cbn [fold_left removedPaths List.map].
    change (List.map getFilePath l) with (removedPaths l).
    rewrite IH. unfold archiveFile. rewrite Happly. cbn [readClock insertOne].
    cbn [disk log rmSync setDisk].
    destruct (decide (getFilePath sf = p)) as [->|Hne].
    + rewrite lookup_delete_eq.
      rewrite (bool_decide_eq_true_2 (p ∈ p :: removedPaths l)) by apply list_elem_of_here.
      now destruct (bool_decide _).
    + rewrite lookup_delete_ne by exact Hne.
      destruct (bool_decide (p ∈ removedPaths l)) eqn:E.
      * apply bool_decide_eq_true in E.
        now rewrite bool_decide_eq_true_2 by now apply list_elem_of_further.
      * apply bool_decide_eq_false in E.
        rewrite bool_decide_eq_false_2; [reflexivity|].
        intros H. apply elem_of_cons in H as [H|H]; [congruence|contradiction].
Qed.

(** With [--apply] the second loop saves the file of each symbol it
    archives and touches no other path. *)
Lemma archiveSymbols_apply_disk (l : list Unused.t) :
  opt_apply opts = true ->
  forall w n p,
    let d := disk (fst (fold_left (archiveSymbol git opts ttl) l (w, n))) in
    (~ In p (savedPaths (kept opts l)) -> d !! p = disk w !! p)
    /\ (In p (savedPaths (kept opts l)) ->
        exists u, In u (kept opts l) /\ getFilePath (Unused.file u) = p
                  /\ d !! p = Some (getFullText (Unused.file u))).
Proof.
  intros Happly. induction l as [|u l IH]; intros w n p; simpl.
  - split; [reflexivity|intros []].
  - destruct (js_lt (Unused.confidence u) (opt_confidence opts)) eqn:Hlt; simpl.
    + apply IH.
    + rewrite Happly.
      match goal with
      | |- context [fold_left _ l (?w1, ?n1)] => destruct (IH w1 n1 p) as [Hout Hin]
      end.
      simpl in Hout, Hin. split.
      * intros Hp. rewrite Hout by tauto.
        apply lookup_insert_ne. tauto.
      * intros Hp.
        destruct (decide (p ∈ savedPaths (kept opts l))) as [E|E].
        -- apply list_elem_of_In in E.
           destruct (Hin E) as (u' & Hu' & Hpath & Hd). eauto.
        -- rewrite list_elem_of_In in E.
           destruct Hp as [Hp|Hp]; [|contradiction].
           exists u. split; [now left|]. split; [exact Hp|].
           rewrite (Hout E), <- Hp. apply lookup_insert_eq.
Qed.

End Transcript.

(** The loops print nothing but their own lines. *)
Lemma fileMessages_lines (opts : ScanOptions) (ids : nat -> ObjectId)
    (l : list SourceFile) :
  forall used m, In m (fileMessages opts ids used l) ->
    (exists path id, m = FileArchived path id)
    \/ (m = Deleted /\ opt_apply opts = true).
Proof.
  induction l as [|sf l IH]; simpl; intros used m; [intros []|].
  intros [<-|H]; [left; eauto|].
  apply in_app_or in H as [H|H]; [|eauto].
  destruct (opt_apply opts); [|destruct H].
  destruct H as [<-|[]]. now right.
Qed.

Lemma symbolMessages_lines (opts : ScanOptions) (ids : nat -> ObjectId)
    (l : list Unused.t) :
  forall used m, In m (symbolMessages opts ids used l) ->
    (exists type name path id, m = SymbolArchived type name path id)
    \/ ((m = NodeRemovalNotImplemented \/ m = Archived) /\ opt_apply opts = true).
Proof.
  induction l as [|u l IH]; simpl; intros used m; [intros []|].
  intros [<-|H]; [left; eauto 6|].
  apply in_app_or in H as [H|H]; [|eauto].
  destruct (opt_apply opts); [|destruct H].
  destruct H as [<-|[<-|[]]]; right; auto.
Qed.

Lemma fileDocs_length (git : Git) (opts : ScanOptions) (ttl : Z)
    (clk : nat -> Z) (ids : nat -> ObjectId) (l : list SourceFile) :
  forall reads used, length (fileDocs git opts ttl clk ids reads used l) = length l.
Proof. induction l as [|sf l IH]; simpl; intros; [reflexivity|now rewrite IH]. Qed.

Lemma symbolDocs_length (git : Git) (opts : ScanOptions) (ttl : Z)
    (clk : nat -> Z) (ids : nat -> ObjectId) (l : list Unused.t) :
  forall reads used, length (symbolDocs git opts ttl clk ids reads used l) = length l.
Proof. induction l as [|u l IH]; simpl; intros; [reflexivity|now rewrite IH]. Qed.

(** The whole effect of a scan that is given a store URI. *)
Lemma scanCommand_effect (project : Project) (git : Git) (opts : ScanOptions)
    (w : World) :
  JSString.truthy (opt_mongo opts) = true ->
  let files := sourceFilesIn project (opt_srcDir opts) in
  exists reachable,
    reachableFrom (entryFilesOf project opts files) (sourceByPathOf files)
    = Some reachable
    /\ console (snd (scanCommand project git opts w))
       = console w ++ scanMessages project git opts w reachable
    /\ (opt_apply opts = false -> disk (snd (scanCommand project git opts w)) = disk w)
    /\ (opt_apply opts = true ->
        forall p,
          let d := disk (snd (scanCommand project git opts w)) in
          let saved := savedPaths (kept opts (unusedSymbolsOf files)) in
          let removed := removedPaths (unreachableOf files reachable) in
          (In p saved ->
           exists u, In u (kept opts (unusedSymbolsOf files))
                     /\ getFilePath (Unused.file u) = p
                     /\ d !! p = Some (getFullText (Unused.file u)))
          /\ (~ In p saved -> In p removed -> d !! p = None)
          /\ (~ In p saved -> ~ In p removed -> d !! p = disk w !! p)).
Proof.
  intros Hmongo files. unfold scanCommand. rewrite Hmongo. simpl.
  destruct (reachableFrom_total
              (entryFilesOf project opts (sourceFilesIn project (opt_srcDir opts)))
              (sourceByPathOf (sourceFilesIn project (opt_srcDir opts))))
    as [R HR].
  exists R. split; [exact HR|]. rewrite HR.
  match goal with
  | |- context [fold_left (archiveSymbol ?g ?o ?t) ?l (?w1, ?n1)] =>
      pose proof (archiveSymbols_console g o t l w1 n1) as Hcon;
      pose proof (archiveSymbols_report g o t l) as Hrep;
      pose proof (archiveSymbols_apply_disk g o t l) as Happ;
      specialize (fun H => Hrep H w1 n1);
      specialize (fun H => Happ H w1 n1);
      pose proof (archiveSymbols_world g o t l w1 n1) as Hsym;
      destruct (fold_left (archiveSymbol g o t) l (w1, n1)) as [w2 n2]
  end.
  simpl in Hcon, Hrep, Happ, Hsym. destruct Hsym as (_ & _ & _ & Hn).
  match type of Hcon with
  | context [fold_left (archiveFile ?g ?o ?t) ?l ?w1] =>
      destruct (archiveFiles_world g o t l w1) as (_ & _ & F3 & _ & F5);
      pose proof (archiveFiles_console g o t l w1) as Fcon;
      pose proof (archiveFiles_report g o t l) as Frep;
      pose proof (archiveFiles_apply_disk g o t l) as Fapp;
      specialize (fun H => Frep H w1);
      specialize (fun H => Fapp H w1)
  end.
  simpl in F3, F5, Fcon, Frep, Fapp.
  rewrite Fcon, F3, F5 in Hcon. simpl in Hcon.
  assert (forall w0, disk (if opt_apply opts then log RunGitDiff w0 else w0) = disk w0)
    as Hd by (intros; destruct (opt_apply opts); reflexivity).
  split; [|split].
  - unfold scanMessages. fold files. subst n2.
    destruct (opt_apply opts); simpl; rewrite Hcon; simpl;
      rewrite <- !app_assoc; simpl; rewrite <- ?app_assoc; reflexivity.
  - intros Hreport. simpl. rewrite Hd. simpl. now rewrite Hrep, Frep.
  - intros Happly p. simpl. rewrite Hd. simpl.
    destruct (Happ Happly p) as [Hout Hin]. split; [exact Hin|].
    split.
    + intros Hs Hr. rewrite (Hout Hs), (Fapp Happly p).
      now rewrite bool_decide_eq_true_2 by now apply list_elem_of_In.
    + intros Hs Hr. rewrite (Hout Hs), (Fapp Happly p).
      now rewrite bool_decide_eq_false_2 by now rewrite list_elem_of_In.
Qed.

(** More turns than the loop needs change nothing. *)
Lemma reachLoop_more_fuel (sourceByPath : list (string * SourceFile)) (fuel : nat) :
  forall stack R R',
    reachLoop fuel sourceByPath stack R = Some R' ->
    forall more, reachLoop (fuel + more) sourceByPath stack R = Some R'.
Proof.
  induction fuel as [|fuel IH]; simpl; intros stack R R' Hrun more; [discriminate|].
  destruct stack as [|sf stack]; [exact Hrun|].
  destruct (bool_decide (norm sf ∈ R)); now apply IH.
Qed.

(** X1. The reachability loop of a scan always ends, import cycles
    included: whatever the files, their imports and the entry files, the
    stack is empty after at most [reachFuel] turns (one, plus one per entry
    file, plus for every unit one more than the number of imports of all
    units), and the reachable set is then what it stays.  A scan that is
    given no store URI does not get that far: it exits with code 1 after
    the error message, having touched neither the store nor the disk nor
    the clock. *)
Theorem reachability_loop_always_ends (project : Project) (git : Git)
    (opts : ScanOptions) (w : World) (entryFiles : list SourceFile)
    (sourceByPath : list (string * SourceFile)) :
  (exists reachable,
     forall turns, (reachFuel entryFiles sourceByPath <= turns)%nat ->
       reachLoop turns sourceByPath (rev entryFiles) ∅ = Some reachable)
  /\ (JSString.truthy (opt_mongo opts) = false ->
      scanCommand project git opts w = (Exited 1, log MissingMongoUri w)
      /\ ck_items (log MissingMongoUri w) = ck_items w
      /\ disk (log MissingMongoUri w) = disk w
      /\ clockReads (log MissingMongoUri w) = clockReads w).
Proof.
  split.
  - destruct (reachableFrom_total entryFiles sourceByPath) as [R HR].
    exists R. intros turns Hturns. unfold reachableFrom in HR.
    replace turns
      with (reachFuel entryFiles sourceByPath
            + (turns - reachFuel entryFiles sourceByPath))%nat by lia.
    now apply reachLoop_more_fuel.
  - intros Hmongo. unfold scanCommand. rewrite Hmongo. simpl. auto.
Qed.

(** X2. Without [--apply] a scan changes no file, and prints none of the
    lines of apply mode: no [deleted], no [Node removal not implemented
    yet], no [archived], no hint to run [git diff]. *)
Theorem scan_report_mode_changes_no_file (project : Project) (git : Git)
    (opts : ScanOptions) (w : World) :
  JSString.truthy (opt_mongo opts) = true ->
  opt_apply opts = false ->
  disk (snd (scanCommand project git opts w)) = disk w
  /\ exists printed,
       console (snd (scanCommand project git opts w)) = console w ++ printed
       /\ ~ In Deleted printed /\ ~ In NodeRemovalNotImplemented printed
       /\ ~ In Archived printed /\ ~ In RunGitDiff printed.
Proof.
  intros Hmongo Hreport.
  destruct (scanCommand_effect project git opts w Hmongo) as (R & _ & Hcon & Hdisk & _).
  split; [now apply Hdisk|].
  exists (scanMessages project git opts w R). split; [exact Hcon|].
  assert (forall m, In m (scanMessages project git opts w R) ->
                    m <> Deleted /\ m <> NodeRemovalNotImplemented
                    /\ m <> Archived /\ m <> RunGitDiff) as Hlines.
  { unfold scanMessages. rewrite Hreport. intros m Hm.
    repeat (apply in_app_or in Hm as [Hm|Hm]).
    - simpl in Hm. in_cases Hm; repeat split; discriminate.
    - apply fileMessages_lines in Hm as [(? & ? & ->)|[_ Habs]];
        [repeat split; discriminate|congruence].
    - simpl in Hm. in_cases Hm; repeat split; discriminate.
    - apply symbolMessages_lines in Hm as [(? & ? & ? & ? & ->)|[_ Habs]];
        [repeat split; discriminate|congruence].
    - simpl in Hm. in_cases Hm; repeat split; discriminate.
    - destruct Hm. }
  repeat split; intros Hin; apply Hlines in Hin; tauto.
Qed.

Lemma scan_report_mode_changes_no_file_witness :
  disk (snd (scanCommand Demo.project Demo.git Demo.options Demo.world))
  = disk Demo.world
  /\ exists printed,
       console (snd (scanCommand Demo.project Demo.git Demo.options Demo.world))
       = console Demo.world ++ printed
       /\ ~ In Deleted printed /\ ~ In NodeRemovalNotImplemented printed
       /\ ~ In Archived printed /\ ~ In RunGitDiff printed.
Proof.
  apply (scan_report_mode_changes_no_file Demo.project Demo.git Demo.options
           Demo.world); reflexivity.
Defined.

(** X3. The total of the last line of a scan is the number of documents the
    scan inserted; the number of unused symbols it announces is counted
    before the threshold is applied. *)
Theorem scan_reports_what_it_inserted (project : Project) (git : Git)
    (opts : ScanOptions) (w : World) :
  JSString.truthy (opt_mongo opts) = true ->
  exists printed inserted,
    console (snd (scanCommand project git opts w)) = console w ++ printed
    /\ ck_items (snd (scanCommand project git opts w)) = ck_items w ++ inserted
    /\ In (Finished (length inserted)) printed
    /\ (forall n, In (Finished n) printed -> n = length inserted)
    /\ In (ArchivingUnusedSymbols
             (length (unusedSymbolsOf (sourceFilesIn project (opt_srcDir opts)))))
          printed.
Proof.
  intros Hmongo.
  destruct (scanCommand_effect project git opts w Hmongo) as (R & HR & Hcon & _).
  destruct (scanCommand_result project git opts w Hmongo) as (R' & HR' & _ & Hitems).
  assert (R' = R) as -> by congruence.
  exists (scanMessages project git opts w R), (scanDocs project git opts w R).
  split; [exact Hcon|]. split; [exact Hitems|].
  assert (Hlen : length (scanDocs project git opts w R)
                 = (length (unreachableOf (sourceFilesIn project (opt_srcDir opts)) R)
                    + length (kept opts (unusedSymbolsOf
                                           (sourceFilesIn project (opt_srcDir opts)))))%nat).
  { unfold scanDocs. now rewrite length_app, fileDocs_length, symbolDocs_length. }
  rewrite Hlen. unfold scanMessages. split; [|split].
  - do 4 (apply in_or_app; right). apply in_or_app. left. now left.
  - intros n Hn. repeat (apply in_app_or in Hn as [Hn|Hn]).
    + simpl in Hn. in_cases Hn; discriminate.
    + apply fileMessages_lines in Hn as [(? & ? & Hn)|[Hn _]]; discriminate.
    + simpl in Hn. in_cases Hn; discriminate.
    + apply symbolMessages_lines in Hn as [(? & ? & ? & ? & Hn)|[[Hn|Hn] _]];
        discriminate.
    + simpl in Hn. destruct Hn as [[= <-]|[]]. reflexivity.
    + destruct (opt_apply opts); simpl in Hn; in_cases Hn; discriminate.
  - apply in_or_app. right. apply in_or_app. right. apply in_or_app. left. now left.
Qed.

Lemma scan_reports_what_it_inserted_witness :
  exists printed inserted,
    console (snd (scanCommand Demo.project Demo.git Demo.options Demo.world))
    = console Demo.world ++ printed
    /\ ck_items (snd (scanCommand Demo.project Demo.git Demo.options Demo.world))
       = ck_items Demo.world ++ inserted
    /\ In (Finished (length inserted)) printed
    /\ (forall n, In (Finished n) printed -> n = length inserted)
    /\ In (ArchivingUnusedSymbols
             (length (unusedSymbolsOf (sourceFilesIn Demo.project
                                         (opt_srcDir Demo.options)))))
          printed.
Proof.
  apply (scan_reports_what_it_inserted Demo.project Demo.git Demo.options
           Demo.world).
  reflexivity.
Defined.

(** X4. With [--apply] a scan changes the disk at two kinds of paths only:
    the file of an archived symbol ends with the text the project holds for
    it, and an unreachable file that owns no archived symbol ends removed;
    every other path keeps its content. *)
Theorem scan_apply_mode_disk (project : Project) (git : Git)
    (opts : ScanOptions) (w : World) :
  JSString.truthy (opt_mongo opts) = true ->
  opt_apply opts = true ->
  let files := sourceFilesIn project (opt_srcDir opts) in
  exists reachable,
    reachableFrom (entryFilesOf project opts files) (sourceByPathOf files)
    = Some reachable
    /\ forall p,
         let d := disk (snd (scanCommand project git opts w)) in
         let saved := savedPaths (kept opts (unusedSymbolsOf files)) in
         let removed := removedPaths (unreachableOf files reachable) in
         (In p saved ->
          exists u, In u (kept opts (unusedSymbolsOf files))
                    /\ getFilePath (Unused.file u) = p
                    /\ d !! p = Some (getFullText (Unused.file u)))
         /\ (~ In p saved -> In p removed -> d !! p = None)
         /\ (~ In p saved -> ~ In p removed -> d !! p = disk w !! p).
Proof.
  intros Hmongo Happly files.
  destruct (scanCommand_effect project git opts w Hmongo) as (R & HR & _ & _ & Hdisk).
  exists R. split; [exact HR|]. exact (Hdisk Happly).
Qed.

Lemma scan_apply_mode_disk_witness :
  exists reachable,
    reachableFrom (entryFilesOf Demo.project (Demo.withApply Demo.options) Demo.files)
      (sourceByPathOf Demo.files)
    = Some reachable
    /\ forall p,
         let d := disk (snd (scanCommand Demo.project Demo.git
                               (Demo.withApply Demo.options) Demo.world)) in
         let saved :=
           savedPaths (kept (Demo.withApply Demo.options)
                         (unusedSymbolsOf Demo.files)) in
         let removed := removedPaths (unreachableOf Demo.files reachable) in
         (In p saved ->
          exists u, In u (kept (Demo.withApply Demo.options)
                            (unusedSymbolsOf Demo.files))
                    /\ getFilePath (Unused.file u) = p
                    /\ d !! p = Some (getFullText (Unused.file u)))
         /\ (~ In p saved -> In p removed -> d !! p = None)
         /\ (~ In p saved -> ~ In p removed -> d !! p = disk Demo.world !! p).
Proof.
  apply (scan_apply_mode_disk Demo.project Demo.git (Demo.withApply Demo.options)
           Demo.world); reflexivity.
Defined.

(** ** The shape of an archived item *)

Lemma unusedSymbolsOf_type (files : list SourceFile) (u : Unused.t) :
  In u (unusedSymbolsOf files) ->
  Unused.type u = nodeType (Unused.node u)
  /\ Unused.name u = readableName (Unused.node u)
  /\ Unused.type u <> ItemType.file.
Proof.
  intros H. apply unusedSymbolsOf_In in H as (sf & _ & H).
  assert (forall n, nodeType n <> ItemType.file) as Hnf.
  { intros n. unfold nodeType.
    destruct (isFunctionDeclaration n), (isMethodDeclaration n),
      (isVariableDeclaration n), (isClassDeclaration n); discriminate. }
  destruct H as [(exp & d & _ & _ & H)|(n & _ & H)].
  - apply scanExported_In in H as (_ & _ & ->). simpl. auto.
  - apply scanDescendant_In in H as (_ & H).
    destruct H as [[Hk ->]|[[Hk ->]|[[Hk ->]|[Hk ->]]]]; simpl;
      try apply andb_true_iff in Hk as [Hk _];
      unfold nodeType, isFunctionDeclaration, isMethodDeclaration,
        isVariableDeclaration, isClassDeclaration in *;
      destruct (getKind n); try discriminate; repeat split; discriminate.
Qed.

(** X5. Every item a scan inserts has the shape of its kind: the name and
    the range are absent exactly for a file item, whose reason is
    [unreachable_file]; a symbol item has the type of its node, reason
    [no_refs] and a range at column 0 spanning the lines of the node; the
    reference list is always empty, and [repo] and [commit] are never. *)
Theorem archived_item_shape (project : Project) (git : Git)
    (opts : ScanOptions) (w : World) :
  JSString.truthy (opt_mongo opts) = true ->
  exists inserted,
    ck_items (snd (scanCommand project git opts w)) = ck_items w ++ inserted
    /\ forall doc, In doc inserted ->
         let item := snd doc in
         ArchiveItem.references item = []
         /\ JSString.truthy (ArchiveItem.repo item) = true
         /\ JSString.truthy (ArchiveItem.commit item) = true
         /\ ((ArchiveItem.type item = ItemType.file
              /\ ArchiveItem.name item = None
              /\ ArchiveItem.range item = None
              /\ ArchiveItem.reason item = Reason.unreachable_file)
             \/ (exists u,
                   In u (unusedSymbolsOf (sourceFilesIn project (opt_srcDir opts)))
                   /\ ArchiveItem.type item = nodeType (Unused.node u)
                   /\ ArchiveItem.type item <> ItemType.file
                   /\ ArchiveItem.name item = Some (readableName (Unused.node u))
                   /\ ArchiveItem.range item
                      = Some {| start := {| line := getStartLineNumber (Unused.node u);
                                            col := 0 |};
                                end_ := {| line := getEndLineNumber (Unused.node u);
                                           col := 0 |} |}
                   /\ ArchiveItem.reason item = Reason.no_refs)).
Proof.
  intros Hmongo.
  destruct (scanCommand_result project git opts w Hmongo) as (R & _ & _ & Hitems).
  exists (scanDocs project git opts w R). split; [exact Hitems|].
  assert (JSString.truthy (repoOf git) = true) as Hrepo
    by (unfold repoOf; destruct (JSString.truthy (remoteUrl git)) eqn:E; auto).
  assert (JSString.truthy (commitOf git) = true) as Hcommit
    by (unfold commitOf; destruct (JSString.truthy (head_ git)) eqn:E; auto).
  intros doc Hdoc. unfold scanDocs in Hdoc. apply in_app_or in Hdoc as [Hdoc|Hdoc].
  - apply fileDocs_In in Hdoc as (k & sf & _ & ->). simpl. auto 10.
  - apply symbolDocs_In in Hdoc as (k & u & Hu & ->). simpl.
    unfold kept in Hu. apply filter_In in Hu as [Hu _].
    destruct (unusedSymbolsOf_type _ _ Hu) as (Ht & Hn & Hf).
    split; [reflexivity|]. split; [exact Hrepo|]. split; [exact Hcommit|].
    right. exists u. rewrite <- Ht, <- Hn.
    repeat split; auto. now apply (unusedSymbolsOf_reason _ _ Hu).
Qed.

Lemma archived_item_shape_witness :
  exists inserted,
    ck_items (snd (scanCommand Demo.project Demo.git Demo.options Demo.world))
    = ck_items Demo.world ++ inserted
    /\ forall doc, In doc inserted ->
         let item := snd doc in
         ArchiveItem.references item = []
         /\ JSString.truthy (ArchiveItem.repo item) = true
         /\ JSString.truthy (ArchiveItem.commit item) = true
         /\ ((ArchiveItem.type item = ItemType.file
              /\ ArchiveItem.name item = None
              /\ ArchiveItem.range item = None
              /\ ArchiveItem.reason item = Reason.unreachable_file)
             \/ (exists u,
                   In u (unusedSymbolsOf (sourceFilesIn Demo.project
                                            (opt_srcDir Demo.options)))
                   /\ ArchiveItem.type item = nodeType (Unused.node u)
                   /\ ArchiveItem.type item <> ItemType.file
                   /\ ArchiveItem.name item = Some (readableName (Unused.node u))
                   /\ ArchiveItem.range item
                      = Some {| start := {| line := getStartLineNumber (Unused.node u);
                                            col := 0 |};
                                end_ := {| line := getEndLineNumber (Unused.node u);
                                           col := 0 |} |}
                   /\ ArchiveItem.reason item = Reason.no_refs)).
Proof.
  apply (archived_item_shape Demo.project Demo.git Demo.options Demo.world).
  reflexivity.
Defined.

(** ** Strings *)

Module JSStringFacts.
Import JSString.

Lemma append_cons (c : ascii) (a b : string) :
  String c a +:+ b = String c (a +:+ b).
Proof. reflexivity. Qed.

Lemma append_empty (b : string) : EmptyString +:+ b = b.
Proof. reflexivity. Qed.

Lemma startsWith_empty (s : string) : startsWith s EmptyString = true.
Proof. now destruct s. Qed.

Lemma startsWith_app (p : string) : forall s x,
  startsWith s p = true -> startsWith (s +:+ x) p = true.
Proof.
  induction p as [|c p IH]; intros s x H; [apply startsWith_empty|].
  destruct s as [|d s]; simpl in *; [discriminate|].
  apply andb_true_iff in H as [Hc H]. rewrite Hc. now apply IH.
Qed.

Lemma startsWith_self (p x : string) : startsWith (p +:+ x) p = true.
Proof.
  induction p as [|c p IH]; simpl; [apply startsWith_empty|].
  now rewrite Ascii.eqb_refl.
Qed.

Lemma startsWith_split (p : string) : forall s,
  startsWith s p = true -> exists x, s = p +:+ x.
Proof.
  induction p as [|c p IH]; intros s; simpl.
  - intros _. now exists s.
  - destruct s as [|d s]; [discriminate|].
    intros H. apply andb_true_iff in H as [Hc H].
    apply Ascii.eqb_eq in Hc. subst d.
    destruct (IH s H) as [x ->]. now exists x.
Qed.

Lemma startsWith_includes (s p : string) :
  startsWith s p = true -> includes s p = true.
Proof. intros H. destruct s; cbn [includes]; now rewrite H. Qed.

Lemma includes_app_r (a b p : string) :
  includes b p = true -> includes (a +:+ b) p = true.
Proof.
  intros H. induction a as [|c a IH]; simpl; [exact H|].
  rewrite IH. apply orb_true_r.
Qed.

Lemma slice_split (n : nat) : forall s, exists pre, s = pre +:+ slice n s.
Proof.
  induction n as [|n IH]; intros s; simpl.
  - now exists EmptyString.
  - destruct s as [|c s]; [now exists EmptyString|].
    destruct (IH s) as [pre Hpre]. exists (String c pre).
    rewrite append_cons. f_equal. exact Hpre.
Qed.

Lemma endsWith_split (k a : string) :
  endsWith k a = true -> exists pre, k = pre +:+ a.
Proof.
  unfold endsWith. intros H. apply andb_true_iff in H as [_ H].
  apply String.eqb_eq in H.
  destruct (slice_split (String.length k - String.length a) k) as [pre Hpre].
  exists pre. now rewrite <- H.
Qed.

Lemma endsWith_includes (k a p : string) :
  endsWith k a = true -> includes a p = true -> includes k p = true.
Proof.
  intros Hk Ha. apply endsWith_split in Hk as [pre ->]. now apply includes_app_r.
Qed.

Lemma replaceBackslashes_app (a b : string) :
  replaceBackslashes (a +:+ b) = replaceBackslashes a +:+ replaceBackslashes b.
Proof. induction a as [|c a IH]; simpl; [reflexivity|now rewrite IH]. Qed.

Lemma startsWith_replaceBackslashes (p : string) : forall s,
  startsWith s p = true ->
  startsWith (replaceBackslashes s) (replaceBackslashes p) = true.
Proof.
  induction p as [|c p IH]; intros s H; [apply startsWith_empty|].
  destruct s as [|d s]; simpl in *; [discriminate|].
  apply andb_true_iff in H as [Hc H]. apply Ascii.eqb_eq in Hc. subst d.
  now rewrite Ascii.eqb_refl, IH.
Qed.

Lemma includes_replaceBackslashes (p s : string) :
  includes s p = true ->
  includes (replaceBackslashes s) (replaceBackslashes p) = true.
Proof.
  induction s as [|c s IH]; simpl; intros H.
  - rewrite orb_false_r in H.
    apply (startsWith_replaceBackslashes p EmptyString) in H. simpl in H.
    now rewrite H.
  - apply orb_true_iff in H as [H|H].
    + apply (startsWith_replaceBackslashes p (String c s)) in H. simpl in H.
      now rewrite H.
    + rewrite (IH H). apply orb_true_r.
Qed.

Lemma replaceBackslashes_clean (s : string) :
  noBackslash s = true -> replaceBackslashes s = s.
Proof.
  unfold noBackslash. induction s as [|c s IH]; simpl; [reflexivity|].
  intros H. apply andb_true_iff in H as [Hc H]. apply negb_true_iff in Hc.
  now rewrite Hc, IH.
Qed.

Lemma noBackslash_replaceBackslashes (s : string) :
  noBackslash (replaceBackslashes s) = true.
Proof.
  unfold noBackslash. induction s as [|c s IH]; simpl; [reflexivity|].
  rewrite IH, andb_true_r. destruct (Ascii.eqb c "\") eqn:E; [reflexivity|].
  now rewrite E.
Qed.

Lemma noBackslash_slice (n : nat) : forall s,
  noBackslash s = true -> noBackslash (slice n s) = true.
Proof.
  unfold noBackslash.
  induction n as [|n IH]; intros [|c s]; simpl; auto.
  intros H. apply andb_true_iff in H as [_ H]. now apply IH.
Qed.

(** Where [lastIndexOf] finds the pattern, the pattern is. *)
Lemma lastIndexOfFrom_found (p : string) : forall s j,
  includes s p = true ->
  exists i, lastIndexOfFrom j s p = Some (j + i)%nat
            /\ startsWith (slice i s) p = true.
Proof.
  induction s as [|c s IH]; intros j; simpl; intros H.
  - rewrite orb_false_r in H. rewrite H. exists O. now rewrite Nat.add_0_r.
  - destruct (includes s p) eqn:Hs.
    + destruct (IH (S j) eq_refl) as (i & -> & Hi).
      exists (S i). now rewrite Nat.add_succ_r.
    + rewrite orb_false_r in H. rewrite H.
      destruct (lastIndexOfFrom (S j) s p) as [k|] eqn:Hk.
      * (* the pattern cannot be found in a tail that does not include it *)
        exfalso. clear - Hs Hk.
        revert j k Hk. induction s as [|d s IHs]; simpl in *; intros j k Hk.
        -- apply orb_false_iff in Hs as [Hs _]. now rewrite Hs in Hk.
        -- apply orb_false_iff in Hs as [Hs1 Hs2].
           destruct (lastIndexOfFrom (S (S j)) s p) as [k'|] eqn:Hk'.
           ++ now apply (IHs Hs2 (S j) k').
           ++ now rewrite Hs1 in Hk.
      * exists O. now rewrite Nat.add_0_r.
Qed.

Lemma slice_tail (i : nat) : forall s c q x,
  slice i s = String c q +:+ x -> slice (S i) s = q +:+ x.
Proof.
  induction i as [|i IH]; intros [|d s] c q x; rewrite append_cons.
  - discriminate.
  - now intros [= _ ->].
  - discriminate.
  - intros H. rewrite <- append_cons in H. exact (IH s c q x H).
Qed.

End JSStringFacts.

(** ** The archived path *)

Lemma rel_normalized (project : Project) (srcDir : string) (f : SourceFile) :
  noBackslash srcDir = true ->
  In f (sourceFilesIn project srcDir) ->
  noBackslash (rel f srcDir) = true
  /\ JSString.startsWith (rel f srcDir) (srcDir +:+ "/") = true.
Proof.
  intros Hdir Hf. unfold sourceFilesIn in Hf. apply filter_In in Hf as [_ Hf].
  assert (Hinc : JSString.includes (norm f) ("/" +:+ srcDir +:+ "/") = true).
  { unfold norm. apply orb_true_iff in Hf as [Hf|Hf];
      apply JSStringFacts.includes_replaceBackslashes in Hf;
      rewrite !JSStringFacts.replaceBackslashes_app in Hf;
      rewrite (JSStringFacts.replaceBackslashes_clean srcDir Hdir) in Hf;
      exact Hf. }
  unfold rel, JSString.lastIndexOf.
  destruct (JSStringFacts.lastIndexOfFrom_found _ _ O Hinc) as (i & -> & Hi).
  rewrite Nat.add_0_l. split.
  - apply JSStringFacts.noBackslash_slice, JSStringFacts.noBackslash_replaceBackslashes.
  - apply JSStringFacts.startsWith_split in Hi as [x Hx].
    change ("/" +:+ srcDir +:+ "/") with (String "/" (srcDir +:+ "/")) in Hx.
    rewrite (JSStringFacts.slice_tail i _ _ _ _ Hx).
    apply JSStringFacts.startsWith_self.
Qed.

(** X6. The path of every item a scan inserts is relative to the source
    directory and written with forward slashes: it begins with the name of
    the source directory and a slash, and holds no backslash.  The name of
    the source directory itself holds no backslash. *)
Theorem archived_path_is_relative (project : Project) (git : Git)
    (opts : ScanOptions) (w : World) :
  JSString.truthy (opt_mongo opts) = true ->
  noBackslash (opt_srcDir opts) = true ->
  exists inserted,
    ck_items (snd (scanCommand project git opts w)) = ck_items w ++ inserted
    /\ forall doc, In doc inserted ->
         noBackslash (ArchiveItem.path (snd doc)) = true
         /\ JSString.startsWith (ArchiveItem.path (snd doc))
              (opt_srcDir opts +:+ "/") = true.
Proof.
  intros Hmongo Hdir.
  destruct (scanCommand_result project git opts w Hmongo) as (R & _ & _ & Hitems).
  exists (scanDocs project git opts w R). split; [exact Hitems|].
  intros doc Hdoc. unfold scanDocs in Hdoc. apply in_app_or in Hdoc as [Hdoc|Hdoc].
  - apply fileDocs_In in Hdoc as (k & sf & Hsf & ->). simpl.
    unfold unreachableOf in Hsf. apply filter_In in Hsf as [Hsf _].
    now apply (rel_normalized project).
  - apply symbolDocs_In in Hdoc as (k & u & Hu & ->). simpl.
    unfold kept in Hu. apply filter_In in Hu as [Hu _].
    apply unusedSymbolsOf_entry in Hu as (Hsf & _).
    now apply (rel_normalized project).
Qed.

Lemma archived_path_is_relative_witness :
  exists inserted,
    ck_items (snd (scanCommand Demo.project Demo.git Demo.options Demo.world))
    = ck_items Demo.world ++ inserted
    /\ forall doc, In doc inserted ->
         noBackslash (ArchiveItem.path (snd doc)) = true
         /\ JSString.startsWith (ArchiveItem.path (snd doc))
              (opt_srcDir Demo.options +:+ "/") = true.
Proof.
  apply (archived_path_is_relative Demo.project Demo.git Demo.options Demo.world);
    reflexivity.
Defined.

(** ** Import resolution *)

Lemma firstSome_none {A B : Type} (f : A -> option B) (l : list A) :
  (forall a, In a l -> f a = None) -> firstSome f l = None.
Proof.
  induction l as [|a l IH]; simpl; intros H; [reflexivity|].
  rewrite (H a (or_introl eq_refl)). apply IH. intros b Hb. apply H. now right.
Qed.

(** The candidates of [resolveImport] all begin with the specifier. *)
Lemma tryPaths_prefix (spec t : string) :
  In t (tryPaths spec) -> exists x, t = spec +:+ x.
Proof.
  unfold tryPaths. intros [<-|H].
  - exists EmptyString. induction spec as [|c s IH]; [reflexivity|].
    rewrite JSStringFacts.append_cons. now rewrite <- IH.
  - repeat (destruct H as [<-|H]; [eauto|]). destruct H.
Qed.

(** A key found by [resolveImport] includes every pattern that begins the
    joined path after the directory. *)
Lemma resolveImport_pattern (from : SourceFile) (spec : string)
    (map : list (string * SourceFile)) (pat : string) :
  JSString.replaceBackslashes pat = pat ->
  JSString.startsWith ("/" +:+ spec) pat = true ->
  (forall kv, In kv map -> JSString.includes (fst kv) pat = false) ->
  resolveImport from spec map = None.
Proof.
  intros Hpat Hspec Hmap. unfold resolveImport.
  destruct (_ || _); [|reflexivity].
  apply firstSome_none. intros t Ht. apply firstSome_none. intros kv Hkv.
  destruct (JSString.endsWith _ _) eqn:E; [|reflexivity]. exfalso.
  apply tryPaths_prefix in Ht as [x ->].
  assert (Hinc : JSString.includes (fst kv) pat = true).
  { eapply JSStringFacts.endsWith_includes; [exact E|].
    rewrite JSStringFacts.replaceBackslashes_app.
    apply JSStringFacts.includes_app_r. rewrite <- Hpat.
    apply JSStringFacts.includes_replaceBackslashes.
    apply JSStringFacts.startsWith_includes.
    change ("/" +:+ spec +:+ x) with (("/" +:+ spec) +:+ x).
    now apply JSStringFacts.startsWith_app. }
  rewrite (Hmap kv Hkv) in Hinc. discriminate.
Qed.

Lemma resolveImport_relative (from : SourceFile) (spec : string)
    (map : list (string * SourceFile)) :
  relativeSpecifier spec = true ->
  (forall kv, In kv map -> standardPath (fst kv) = true) ->
  resolveImport from spec map = None.
Proof.
  unfold relativeSpecifier, standardPath. intros Hspec Hmap.
  assert (Hk : forall kv, In kv map ->
                 JSString.includes (fst kv) "/./" = false
                 /\ JSString.includes (fst kv) "/../" = false
                 /\ JSString.includes (fst kv) "//" = false).
  { intros kv Hkv. specialize (Hmap kv Hkv).
    apply andb_true_iff in Hmap as [Hmap H3].
    apply andb_true_iff in Hmap as [H1 H2].
    apply negb_true_iff in H1, H2, H3. auto. }
  apply orb_true_iff in Hspec as [Hspec|Hspec];
    [apply orb_true_iff in Hspec as [Hspec|Hspec]|].
  - apply (resolveImport_pattern from spec map "/./"); [reflexivity| |].
    + change (JSString.startsWith (String "/" spec) (String "/" "./") = true).
      cbn [JSString.startsWith]. now rewrite Ascii.eqb_refl.
    + intros kv Hkv. now apply Hk.
  - apply (resolveImport_pattern from spec map "/../"); [reflexivity| |].
    + change (JSString.startsWith (String "/" spec) (String "/" "../") = true).
      cbn [JSString.startsWith]. now rewrite Ascii.eqb_refl.
    + intros kv Hkv. now apply Hk.
  - apply (resolveImport_pattern from spec map "//"); [reflexivity| |].
    + change (JSString.startsWith (String "/" spec) (String "/" "/") = true).
      cbn [JSString.startsWith]. now rewrite Ascii.eqb_refl.
    + intros kv Hkv. now apply Hk.
Qed.

(** X7. [resolveImport] joins the directory of the importing file and the
    specifier without simplifying the result, and looks for it at the end of
    the known paths.  So a specifier that begins with [./], [../] or [/] is
    never resolved when no known path holds an empty, [.] or [..] segment. *)
Theorem relative_import_never_resolves (from : SourceFile) (spec : string)
    (map : list (string * SourceFile)) :
  relativeSpecifier spec = true ->
  Forall (fun kv => standardPath (fst kv) = true) map ->
  resolveImport from spec map = None.
Proof.
  intros Hspec Hmap. apply resolveImport_relative; [exact Hspec|].
  intros kv Hkv. rewrite List.Forall_forall in Hmap. now apply Hmap.
Qed.

Lemma relative_import_never_resolves_witness :
  resolveImport Demo.specTs "./index" (sourceByPathOf Demo.files) = None.
Proof.
  apply (relative_import_never_resolves Demo.specTs "./index"
           (sourceByPathOf Demo.files)).
  - reflexivity.
  - vm_compute. repeat constructor.
Defined.

(** ** Reachability, from below *)

Lemma sourceByPathOf_keys (files : list SourceFile) (kv : string * SourceFile) :
  In kv (sourceByPathOf files) -> exists f, In f files /\ fst kv = norm f.
Proof.
  intros H. apply Map_new_In, in_map_iff in H as (f & <- & H). eauto.
Qed.

Lemma pushImports_inert (sourceByPath : list (string * SourceFile))
    (sf : SourceFile) (R : gset string) (stack : list SourceFile) :
  (forall t, In t (getImportDeclarations sf) ->
             resolveImport sf t sourceByPath = None) ->
  pushImports sourceByPath sf R stack = stack.
Proof.
  unfold pushImports. generalize (getImportDeclarations sf) as imports.
  induction imports as [|t imports IH]; simpl; intros H; [reflexivity|].
  rewrite (H t (or_introl eq_refl)). apply IH. intros t' Ht'. apply H. now right.
Qed.

(** When no import of a file on the stack resolves, the loop adds the paths
    of the stack and nothing else. *)
Lemma reachLoop_inert (sourceByPath : list (string * SourceFile)) (fuel : nat) :
  forall stack R,
    (forall x t, In x stack -> In t (getImportDeclarations x) ->
                 resolveImport x t sourceByPath = None) ->
    (length stack < fuel)%nat ->
    exists R', reachLoop fuel sourceByPath stack R = Some R'
      /\ forall p, p ∈ R' <-> p ∈ R \/ exists e, In e stack /\ norm e = p.
Proof.
  induction fuel as [|fuel IH]; intros stack R Hnone Hfuel; [lia|].
  simpl. destruct stack as [|sf stack].
  - exists R. split; [reflexivity|]. intros p. split; [now left|].
    intros [H|(e & [] & _)]. exact H.
  - simpl in Hfuel.
    assert (Hrest : forall x t, In x stack -> In t (getImportDeclarations x) ->
                      resolveImport x t sourceByPath = None).
    { intros x t Hx. apply Hnone. now right. }
    destruct (bool_decide (norm sf ∈ R)) eqn:Hd.
    + apply bool_decide_eq_true in Hd.
      destruct (IH stack R Hrest) as (R' & HR' & Hiff); [lia|].
      exists R'. split; [exact HR'|]. intros p. rewrite Hiff. split.
      * intros [H|(e & He & Hn)]; [now left|]. right. exists e. split; [now right|exact Hn].
      * intros [H|(e & [<-|He] & Hn)]; [now left| |].
        -- left. now rewrite <- Hn.
        -- right. eauto.
    + rewrite pushImports_inert by (intros t; apply Hnone; now left).
      destruct (IH stack ({[norm sf]} ∪ R) Hrest) as (R' & HR' & Hiff); [lia|].
      exists R'. split; [exact HR'|]. intros p. rewrite Hiff. split.
      * intros [H|(e & He & Hn)].
        -- apply elem_of_union in H as [H|H]; [|now left].
           apply elem_of_singleton in H. right. exists sf. split; [now left|now symmetry].
        -- right. exists e. split; [now right|exact Hn].
      * intros [H|(e & [<-|He] & Hn)].
        -- left. apply elem_of_union. now right.
        -- left. apply elem_of_union. left. apply elem_of_singleton. now symmetry.
        -- right. eauto.
Qed.

(** A specifier [resolveImport] has no chance with: a bare one, or a
    relative one among standard paths. *)
Lemma resolveImport_bare (from : SourceFile) (spec : string)
    (map : list (string * SourceFile)) :
  JSString.startsWith spec "." = false ->
  JSString.startsWith spec "/" = false ->
  resolveImport from spec map = None.
Proof. intros H1 H2. unfold resolveImport. now rewrite H1, H2. Qed.

(** Where no import of an entry file can resolve, the entry files are all
    there is to reach. *)
Lemma reachable_entries_only (files entryFiles : list SourceFile) :
  Forall (fun f => standardPath (norm f) = true) files ->
  Forall (fun e =>
            Forall (fun t => relativeSpecifier t
                             || negb (JSString.startsWith t ".") = true)
                   (getImportDeclarations e)) entryFiles ->
  exists reachable,
    reachableFrom entryFiles (sourceByPathOf files) = Some reachable
    /\ forall p, p ∈ reachable <-> exists e, In e entryFiles /\ norm e = p.
Proof.
  intros Hfiles Hentries.
  rewrite List.Forall_forall in Hfiles. rewrite List.Forall_forall in Hentries.
  destruct (reachLoop_inert (sourceByPathOf files)
              (reachFuel entryFiles (sourceByPathOf files)) (rev entryFiles) ∅)
    as (R & HR & Hiff).
  - intros x t Hx Ht. apply in_rev in Hx. specialize (Hentries x Hx).
    rewrite List.Forall_forall in Hentries. specialize (Hentries t Ht).
    destruct (relativeSpecifier t) eqn:Hrel.
    + apply resolveImport_relative; [exact Hrel|].
      intros kv Hkv. apply sourceByPathOf_keys in Hkv as (f & Hf & ->).
      now apply Hfiles.
    + simpl in Hentries. apply negb_true_iff in Hentries.
      apply resolveImport_bare; [exact Hentries|].
      unfold relativeSpecifier in Hrel. now apply orb_false_iff in Hrel as [_ Hrel].
  - rewrite length_rev. unfold reachFuel. lia.
  - exists R. split; [exact HR|]. intros p. rewrite Hiff. split.
    + intros [H|(e & He & Hn)]; [set_solver|]. exists e. split; [now apply in_rev|exact Hn].
    + intros (e & He & Hn). right. exists e. split; [now apply in_rev in He|exact Hn].
Qed.

(** X8. In a project whose paths are standard, where the imports of the
    entry files are bare ([commander]) or begin with [./], [../] or [/], the
    reachable set is exactly the set of the paths of the entry files: no
    import leads anywhere. *)
Theorem reachable_is_entries_when_imports_are_relative
    (files entryFiles : list SourceFile) :
  Forall (fun f => standardPath (norm f) = true) files ->
  Forall (fun e =>
            Forall (fun t => relativeSpecifier t
                             || negb (JSString.startsWith t ".") = true)
                   (getImportDeclarations e)) entryFiles ->
  exists reachable,
    reachableFrom entryFiles (sourceByPathOf files) = Some reachable
    /\ forall p, p ∈ reachable <-> exists e, In e entryFiles /\ norm e = p.
Proof. apply reachable_entries_only. Qed.

Lemma reachable_is_entries_when_imports_are_relative_witness :
  exists reachable,
    reachableFrom Demo.entryFiles (sourceByPathOf Demo.files) = Some reachable
    /\ forall p, p ∈ reachable <-> exists e, In e Demo.entryFiles /\ norm e = p.
Proof.
  apply (reachable_is_entries_when_imports_are_relative Demo.files Demo.entryFiles).
  - vm_compute. repeat constructor.
  - vm_compute. repeat constructor.
Defined.

(** C4: the code departs from the claim.  The entry file [index.test.ts]
    imports [./index], and the candidate [./index.ts] names the loaded file
    [index.ts] of the same directory.  [resolveImport] looks for
    [/proj/src/./index.ts] at the end of the known paths and finds nothing,
    so [index.ts] is left out of the reachable set. *)
Theorem resolvable_import_left_out_of_reachable :
  entryFilesOf Demo.project Samples.importing Demo.files = [Demo.specTs]
  /\ In "./index" (getImportDeclarations Demo.specTs)
  /\ SpecReading.resolve Demo.specTs "./index" Demo.files = Some Demo.indexTs
  /\ In Demo.indexTs Demo.files
  /\ resolveImport Demo.specTs "./index" (sourceByPathOf Demo.files) = None
  /\ exists reachable,
       reachableFrom (entryFilesOf Demo.project Samples.importing Demo.files)
         (sourceByPathOf Demo.files) = Some reachable
       /\ norm Demo.specTs ∈ reachable
       /\ norm Demo.indexTs ∉ reachable.
Proof.
  assert (E : entryFilesOf Demo.project Samples.importing Demo.files = [Demo.specTs])
    by (vm_compute; reflexivity).
  split; [exact E|]. split; [now left|].
  split; [vm_compute; reflexivity|]. split; [vm_compute; left; reflexivity|].
  split; [vm_compute; reflexivity|]. rewrite E.
  destruct (reachable_entries_only Demo.files [Demo.specTs]) as (R & HR & Hiff).
  - vm_compute. repeat constructor.
  - vm_compute. repeat constructor.
  - exists R. split; [exact HR|]. split.
    + apply Hiff. exists Demo.specTs. split; [now left|reflexivity].
    + intros Hin. apply Hiff in Hin as (e & [<-|[]] & Hn). discriminate Hn.
Qed.

(** Every file the loop can reach is a unit. *)
Lemma Reaches_unit (files entryFiles : list SourceFile) (u : SourceFile) :
  Reaches (sourceByPathOf files) entryFiles u -> In u (entryFiles ++ files).
Proof.
  intros H. destruct H as [e He|u t r _ _ Hr].
  - apply in_or_app. now left.
  - apply in_or_app. right. eapply sourceByPathOf_values, resolveImport_In. exact Hr.
Qed.

(** The paths the loop adds are paths of files a chain of resolved imports
    leads to. *)
Lemma reachLoop_justified (sourceByPath : list (string * SourceFile))
    (entryFiles : list SourceFile) (fuel : nat) :
  forall stack R R',
    reachLoop fuel sourceByPath stack R = Some R' ->
    (forall x, In x stack -> Reaches sourceByPath entryFiles x) ->
    (forall p, p ∈ R -> exists u, Reaches sourceByPath entryFiles u /\ norm u = p) ->
    forall p, p ∈ R' -> exists u, Reaches sourceByPath entryFiles u /\ norm u = p.
Proof.
  induction fuel as [|fuel IH]; simpl; intros stack R R' Hrun Hstack HR;
    [discriminate|].
  destruct stack as [|sf stack].
  - injection Hrun as <-. exact HR.
  - destruct (bool_decide (norm sf ∈ R)) eqn:Hd.
    + apply (IH stack R R' Hrun); [|exact HR].
      intros x Hx. apply Hstack. now right.
    + apply (IH _ _ R' Hrun).
      * intros x Hx. apply pushImports_In in Hx as [Hx|(t & Ht & Hx & _)].
        -- apply Hstack. now right.
        -- apply (Reaches_import _ _ sf t x); [apply Hstack; now left|exact Ht|exact Hx].
      * intros p Hp. apply elem_of_union in Hp as [Hp|Hp]; [|now apply HR].
        apply elem_of_singleton in Hp. exists sf. split; [apply Hstack; now left|now symmetry].
Qed.

(** X9. The reachable set is the least closed one: a file of the project
    has its path in it exactly when it is an entry file or is found by
    resolving, one after the other, imports that start at an entry file.  A
    project holds one source file per path. *)
Theorem reachable_is_import_closure (files entryFiles : list SourceFile) :
  (forall u v, In u (entryFiles ++ files) -> In v (entryFiles ++ files) ->
               norm u = norm v -> u = v) ->
  exists reachable,
    reachableFrom entryFiles (sourceByPathOf files) = Some reachable
    /\ forall u, In u (entryFiles ++ files) ->
         (norm u ∈ reachable <-> Reaches (sourceByPathOf files) entryFiles u).
Proof.
  intros Huniq.
  destruct (reachableFrom_total entryFiles (sourceByPathOf files)) as [R HR].
  exists R. split; [exact HR|]. unfold reachableFrom in HR.
  intros u Hu. split.
  - intros Hin.
    destruct (reachLoop_justified _ entryFiles _ _ _ _ HR) with (p := norm u)
      as (u' & Hu' & Hn).
    + intros x Hx. apply Reaches_entry. now apply in_rev.
    + intros p Hp. set_solver.
    + exact Hin.
    + assert (u' = u) as ->; [|exact Hu'].
      apply Huniq; [now apply Reaches_unit|exact Hu|exact Hn].
  - intros Hreach.
    apply (reachLoop_sound (sourceByPathOf files) (entryFiles ++ files)) in HR
      as (_ & Hstack & Hclosed).
    + induction Hreach as [e He|v t r Hv IH Ht Hr].
      * apply Hstack. now apply in_rev in He.
      * assert (Hvin : In v (entryFiles ++ files)) by now apply Reaches_unit.
        specialize (IH Hvin).
        destruct (Hclosed _ IH) as (v' & Hv' & Hn & Hc).
        assert (v' = v) as -> by (apply Huniq; assumption).
        eapply Hc; eassumption.
    + intros r Hr. apply in_or_app. right. now apply sourceByPathOf_values.
    + intros x Hx. apply in_or_app. left. now apply in_rev.
    + intros p Hp. set_solver.
Qed.

Lemma reachable_is_import_closure_witness :
  exists reachable,
    reachableFrom Demo.entryFiles (sourceByPathOf Demo.files) = Some reachable
    /\ forall u, In u (Demo.entryFiles ++ Demo.files) ->
         (norm u ∈ reachable
          <-> Reaches (sourceByPathOf Demo.files) Demo.entryFiles u).
Proof.
  apply (reachable_is_import_closure Demo.files Demo.entryFiles).
  assert (E : Demo.entryFiles ++ Demo.files
              = [Demo.indexTs; Demo.indexTs; Demo.legacyTs; Demo.deadTs; Demo.specTs])
    by (vm_compute; reflexivity).
  rewrite E. intros u v Hu Hv Hn.
  in_cases Hu; in_cases Hv; try reflexivity; vm_compute in Hn; discriminate Hn.
Defined.

(** ** What a scan archives *)

Lemma symbolDocs_complete (git : Git) (opts : ScanOptions) (ttl : Z)
    (clk : nat -> Z) (ids : nat -> ObjectId) (l : list Unused.t) :
  forall reads used u,
    In u l ->
    exists k, In (ids (used + k)%nat, symbolItem git opts ttl (clk (reads + k)%nat) u)
                 (symbolDocs git opts ttl clk ids reads used l).
Proof.
  induction l as [|a l IH]; simpl; intros reads used u; [intros []|].
  intros [->|H].
  - exists O. rewrite !Nat.add_0_r. now left.
  - destruct (IH (S reads) (S used) u H) as [k Hk].
    exists (S k). rewrite !Nat.add_succ_r. now right.
Qed.

(** A file left out of the reachable set, and not exempt, gets a document. *)
Lemma unreachable_file_inserted (project : Project) (git : Git)
    (opts : ScanOptions) (w : World) (R : gset string) (f : SourceFile) :
  JSString.truthy (opt_mongo opts) = true ->
  reachableFrom
    (entryFilesOf project opts (sourceFilesIn project (opt_srcDir opts)))
    (sourceByPathOf (sourceFilesIn project (opt_srcDir opts))) = Some R ->
  In f (sourceFilesIn project (opt_srcDir opts)) ->
  norm f ∉ R ->
  isDefinitelyKeep f = false ->
  exists id createdAt,
    In (id, fileItem git opts (clock w (clockReads w) + ttlMilliseconds) createdAt f)
       (ck_items (snd (scanCommand project git opts w))).
Proof.
  intros Hmongo HR Hf Hout Hkeep.
  destruct (scanCommand_result project git opts w Hmongo) as (R' & HR' & _ & Hitems).
  assert (R' = R) as -> by congruence.
  rewrite Hitems. unfold scanDocs.
  destruct (fileDocs_complete git opts (clock w (clockReads w) + ttlMilliseconds)
              (clock w) (objectIds w)
              (unreachableOf (sourceFilesIn project (opt_srcDir opts)) R)
              (S (clockReads w)) (objectIdsUsed w) f) as [k Hk].
  - unfold unreachableOf. apply filter_In. split; [exact Hf|].
    rewrite Hkeep. apply andb_true_iff. split; [|reflexivity].
    apply negb_true_iff, bool_decide_eq_false. exact Hout.
  - eexists _, _. apply in_or_app. right. apply in_or_app. left. exact Hk.
Qed.

(** X10. When no entry file is found (none of the six default names exists
    under the source directory, or the paths given with [--entry] name no
    source file), nothing is reachable: every file of the source directory
    that is not exempt is archived as unreachable. *)
Theorem no_entry_archives_every_file (project : Project) (git : Git)
    (opts : ScanOptions) (w : World) (f : SourceFile) :
  JSString.truthy (opt_mongo opts) = true ->
  entryFilesOf project opts (sourceFilesIn project (opt_srcDir opts)) = [] ->
  In f (sourceFilesIn project (opt_srcDir opts)) ->
  isDefinitelyKeep f = false ->
  exists id createdAt,
    In (id, fileItem git opts (clock w (clockReads w) + ttlMilliseconds) createdAt f)
       (ck_items (snd (scanCommand project git opts w))).
Proof.
  intros Hmongo Hentry Hf Hkeep.
  apply (unreachable_file_inserted project git opts w ∅); try assumption.
  - rewrite Hentry. reflexivity.
  - set_solver.
Qed.

Lemma no_entry_archives_every_file_witness :
  exists id createdAt,
    In (id, fileItem Demo.git Samples.noEntry
              (clock Demo.world (clockReads Demo.world) + ttlMilliseconds)
              createdAt Demo.indexTs)
       (ck_items (snd (scanCommand Demo.project Demo.git Samples.noEntry Demo.world))).
Proof.
  apply (no_entry_archives_every_file Demo.project Demo.git Samples.noEntry
           Demo.world Demo.indexTs).
  - reflexivity.
  - vm_compute. reflexivity.
  - vm_compute. left. reflexivity.
  - vm_compute. reflexivity.
Defined.

(** X11. In a project whose paths are standard and whose entry files import
    by bare or relative specifiers, every file of the source directory that
    is not an entry file and is not exempt is archived as unreachable,
    imported or not. *)
Theorem imported_file_archived_as_unreachable (project : Project) (git : Git)
    (opts : ScanOptions) (w : World) (f : SourceFile) :
  let files := sourceFilesIn project (opt_srcDir opts) in
  JSString.truthy (opt_mongo opts) = true ->
  Forall (fun f => standardPath (norm f) = true) files ->
  Forall (fun e =>
            Forall (fun t => relativeSpecifier t
                             || negb (JSString.startsWith t ".") = true)
                   (getImportDeclarations e))
         (entryFilesOf project opts files) ->
  In f files ->
  Forall (fun e => norm e <> norm f) (entryFilesOf project opts files) ->
  isDefinitelyKeep f = false ->
  exists id createdAt,
    In (id, fileItem git opts (clock w (clockReads w) + ttlMilliseconds) createdAt f)
       (ck_items (snd (scanCommand project git opts w))).
Proof.
  intros files Hmongo Hfiles Himports Hf Hentry Hkeep.
  destruct (reachable_entries_only files (entryFilesOf project opts files)
              Hfiles Himports) as (R & HR & Hiff).
  apply (unreachable_file_inserted project git opts w R); try assumption.
  intros Hin. apply Hiff in Hin as (e & He & Hn).
  rewrite List.Forall_forall in Hentry. now apply (Hentry e He).
Qed.

Lemma imported_file_archived_as_unreachable_witness :
  exists id createdAt,
    In (id, fileItem Demo.git Samples.importing
              (clock Demo.world (clockReads Demo.world) + ttlMilliseconds)
              createdAt Demo.indexTs)
       (ck_items (snd (scanCommand Demo.project Demo.git Samples.importing
                         Demo.world))).
Proof.
  apply (imported_file_archived_as_unreachable Demo.project Demo.git
           Samples.importing Demo.world Demo.indexTs).
  - reflexivity.
  - vm_compute. repeat constructor.
  - vm_compute. repeat constructor.
  - vm_compute. left. reflexivity.
  - vm_compute. repeat constructor; discriminate.
  - vm_compute. reflexivity.
Defined.

(** ** The threshold *)

Lemma filter_all {A : Type} (f : A -> bool) (l : list A) :
  (forall a, In a l -> f a = true) -> List.filter f l = l.
Proof.
  induction l as [|a l IH]; simpl; intros H; [reflexivity|].
  rewrite (H a (or_introl eq_refl)). f_equal. apply IH. intros b Hb. apply H. now right.
Qed.

Lemma filter_none {A : Type} (f : A -> bool) (l : list A) :
  (forall a, In a l -> f a = false) -> List.filter f l = [].
Proof.
  induction l as [|a l IH]; simpl; intros H; [reflexivity|].
  rewrite (H a (or_introl eq_refl)). apply IH. intros b Hb. apply H. now right.
Qed.

Lemma unusedSymbolsOf_confidence (files : list SourceFile) (u : Unused.t) :
  In u (unusedSymbolsOf files) ->
  Unused.confidence u = Finite double_0_95 \/ Unused.confidence u = Finite double_0_9.
Proof.
  intros H. apply unusedSymbolsOf_entry in H as (_ & _ & [[_ H]|[_ H]]); auto.
Qed.

Lemma passes_threshold (c q : Q) :
  negb (js_lt (Finite c) (Finite q)) = true <-> (q <= c)%Q.
Proof.
  simpl. rewrite negb_involutive. apply Qle_bool_iff.
Qed.

Lemma double_0_9_lt_0_95 : (double_0_9 < double_0_95)%Q.
Proof. reflexivity. Qed.

(** X12. The threshold of [--confidence] has three regimes, since symbols
    come with 0.9 or 0.95 only: up to 0.9 every detected symbol is
    archived; above 0.9 and up to 0.95 exactly the exported ones are; above
    0.95 none is. *)
Theorem finite_threshold_regimes (files : list SourceFile) (opts : ScanOptions)
    (q : Q) :
  opt_confidence opts = Finite q ->
  let all := unusedSymbolsOf files in
  ((q <= double_0_9)%Q -> kept opts all = all)
  /\ ((double_0_9 < q)%Q -> (q <= double_0_95)%Q ->
      forall u, In u (kept opts all) <->
                In u all /\ Unused.confidence u = Finite double_0_95)
  /\ ((double_0_95 < q)%Q -> kept opts all = []).
Proof.
  intros Hq all. unfold kept. rewrite Hq. split; [|split].
  - intros Hle. apply filter_all. intros u Hu.
    destruct (unusedSymbolsOf_confidence files u Hu) as [-> | ->];
      apply passes_threshold; [|exact Hle].
    apply Qle_trans with double_0_9; [exact Hle|]. apply Qlt_le_weak, double_0_9_lt_0_95.
  - intros Hlt Hle u. rewrite filter_In. split.
    + intros [Hu Hpass]. split; [exact Hu|].
      destruct (unusedSymbolsOf_confidence files u Hu) as [H|H]; [exact H|].
      rewrite H in Hpass. apply passes_threshold in Hpass.
      exfalso. apply (Qlt_irrefl q). now apply Qle_lt_trans with double_0_9.
    + intros [Hu Hc]. split; [exact Hu|]. rewrite Hc. now apply passes_threshold.
  - intros Hlt. apply filter_none. intros u Hu. apply negb_true_iff.
    destruct (unusedSymbolsOf_confidence files u Hu) as [-> | ->];
      destruct (negb (js_lt _ _)) eqn:E; try reflexivity;
      apply passes_threshold in E; exfalso; apply (Qlt_irrefl q).
    + now apply Qle_lt_trans with double_0_95.
    + apply Qle_lt_trans with double_0_9; [exact E|].
      apply Qlt_trans with double_0_95; [apply double_0_9_lt_0_95|exact Hlt].
Qed.

Lemma finite_threshold_regimes_witness :
  let all := unusedSymbolsOf Demo.files in
  ((double_0_9 <= double_0_9)%Q -> kept Demo.options all = all)
  /\ ((double_0_9 < double_0_9)%Q -> (double_0_9 <= double_0_95)%Q ->
      forall u, In u (kept Demo.options all) <->
                In u all /\ Unused.confidence u = Finite double_0_95)
  /\ ((double_0_95 < double_0_9)%Q -> kept Demo.options all = []).
Proof.
  apply (finite_threshold_regimes Demo.files Demo.options double_0_9). reflexivity.
Defined.

(** X13. A threshold that is not a number ([--confidence abc] gives NaN)
    stops nothing: every detected symbol is archived. *)
Theorem nan_threshold_archives_every_symbol (project : Project) (git : Git)
    (opts : ScanOptions) (w : World) (u : Unused.t) :
  JSString.truthy (opt_mongo opts) = true ->
  opt_confidence opts = NaN ->
  In u (unusedSymbolsOf (sourceFilesIn project (opt_srcDir opts))) ->
  exists id createdAt,
    In (id, symbolItem git opts (clock w (clockReads w) + ttlMilliseconds) createdAt u)
       (ck_items (snd (scanCommand project git opts w))).
Proof.
  intros Hmongo Hnan Hu.
  destruct (scanCommand_result project git opts w Hmongo) as (R & _ & _ & Hitems).
  rewrite Hitems. unfold scanDocs.
  destruct (symbolDocs_complete git opts (clock w (clockReads w) + ttlMilliseconds)
              (clock w) (objectIds w)
              (kept opts (unusedSymbolsOf (sourceFilesIn project (opt_srcDir opts))))
              (S (clockReads w)
               + length (unreachableOf (sourceFilesIn project (opt_srcDir opts)) R))%nat
              (objectIdsUsed w
               + length (unreachableOf (sourceFilesIn project (opt_srcDir opts)) R))%nat
              u) as [k Hk].
  - unfold kept. apply filter_In. split; [exact Hu|]. rewrite Hnan.
    now destruct (Unused.confidence u).
  - eexists _, _. apply in_or_app. right. apply in_or_app. right. exact Hk.
Qed.

Lemma nan_threshold_archives_every_symbol_witness :
  exists id createdAt,
    In (id, symbolItem Demo.git (Demo.withConfidence NaN Demo.options)
              (clock Demo.world (clockReads Demo.world) + ttlMilliseconds)
              createdAt (exported Demo.deadTs Demo.orphan))
       (ck_items (snd (scanCommand Demo.project Demo.git
                         (Demo.withConfidence NaN Demo.options) Demo.world))).
Proof.
  apply (nan_threshold_archives_every_symbol Demo.project Demo.git
           (Demo.withConfidence NaN Demo.options) Demo.world
           (exported Demo.deadTs Demo.orphan)).
  - reflexivity.
  - reflexivity.
  - apply (exported_reported Demo.files Demo.deadTs Demo.orphan).
    + vm_compute. right. right. left. reflexivity.
    + split; [|reflexivity]. exists ("orphan", [Demo.orphan]).
      split; left; reflexivity.
    + vm_compute. lia.
Defined.

(** ** restoreCommand *)

(** X14. A restore never changes the store, whatever way it ends, and
    without [--output] (absent or empty) it leaves every file as it was. *)
Theorem restore_never_changes_the_store (resolve : string -> string)
    (id : string) (opts : RestoreOptions) (w : World) :
  ck_items (snd (restoreCommand resolve id opts w)) = ck_items w
  /\ (outputOf opts = None ->
      disk (snd (restoreCommand resolve id opts w)) = disk w).
Proof.
  unfold restoreCommand.
  destruct (negb (JSString.truthy (ropt_mongo opts))); [simpl; auto|].
  destruct (newObjectId id) as [oid|]; [|simpl; auto].
  destruct (findOne oid (ck_items w)) as [item|]; [|simpl; auto].
  destruct (outputOf opts) as [output|]; simpl.
  - split; [reflexivity|discriminate].
  - auto.
Qed.

(** ** listCommand *)

Lemma insertNewest_In (d x : ObjectId * ArchiveItem.t)
    (l : list (ObjectId * ArchiveItem.t)) :
  In x (insertNewest d l) <-> x = d \/ In x l.
Proof.
  induction l as [|a l IH]; simpl.
  - split; [intros [<-|[]]; now left|intros [->|[]]; now left].
  - destruct (_ <=? _); simpl.
    + split; [intros [<-|H]; auto|intros [->|H]; auto].
    + rewrite IH. split.
      * intros [<-|[->|H]]; auto.
      * intros [->|[<-|H]]; auto.
Qed.

Lemma insertNewest_Permutation (d : ObjectId * ArchiveItem.t)
    (l : list (ObjectId * ArchiveItem.t)) :
  Permutation (insertNewest d l) (d :: l).
Proof.
  induction l as [|a l IH]; simpl; [reflexivity|].
  destruct (_ <=? _); [reflexivity|].
  rewrite IH. apply perm_swap.
Qed.

Lemma sortNewest_Permutation (l : list (ObjectId * ArchiveItem.t)) :
  Permutation (sortNewest l) l.
Proof.
  induction l as [|a l IH]; simpl; [reflexivity|].
  rewrite insertNewest_Permutation. now constructor.
Qed.

Lemma sortNewest_In (x : ObjectId * ArchiveItem.t)
    (l : list (ObjectId * ArchiveItem.t)) :
  In x (sortNewest l) <-> In x l.
Proof.
  split; apply Permutation_in;
    [apply sortNewest_Permutation|symmetry; apply sortNewest_Permutation].
Qed.

Lemma insertNewest_sorted (d : ObjectId * ArchiveItem.t)
    (l : list (ObjectId * ArchiveItem.t)) :
  newestFirst l -> newestFirst (insertNewest d l).
Proof.
  induction l as [|a l IH]; simpl; [intros _; split; [intros b []|exact I]|].
  intros [Ha Hl]. destruct (_ <=? _) eqn:E.
  - apply Z.leb_le in E. simpl. split; [|split; assumption].
    intros b [<-|Hb]; [exact E|]. specialize (Ha b Hb). lia.
  - apply Z.leb_gt in E. simpl. split; [|now apply IH].
    intros b Hb. apply insertNewest_In in Hb as [->|Hb]; [lia|now apply Ha].
Qed.

Lemma sortNewest_sorted (l : list (ObjectId * ArchiveItem.t)) :
  newestFirst (sortNewest l).
Proof.
  induction l as [|a l IH]; simpl; [exact I|]. now apply insertNewest_sorted.
Qed.

(** In a list that is newest first, nothing of a tail is newer than
    anything of the head it follows. *)
Lemma newestFirst_app (a b : list (ObjectId * ArchiveItem.t)) :
  newestFirst (a ++ b) ->
  newestFirst a
  /\ forall x y, In x a -> In y b ->
       ArchiveItem.createdAt (snd y) <= ArchiveItem.createdAt (snd x).
Proof.
  induction a as [|c a IH]; simpl; [intros _; split; [exact I|intros x y []]|].
  intros [Hc Ha]. destruct (IH Ha) as [Hs Hxy]. split.
  - split; [|exact Hs]. intros x Hx. apply Hc. apply in_or_app. now left.
  - intros x y [<-|Hx] Hy; [|now apply Hxy]. apply Hc. apply in_or_app. now right.
Qed.

(** [limitTo] cuts a list in two. *)
Lemma limitTo_split {A : Type} (n : nat) (l : list A) :
  exists rest, l = limitTo n l ++ rest
    /\ (n = O \/ (length l <= n)%nat -> rest = [])
    /\ (n <> O -> (length (limitTo n l) <= n)%nat).
Proof.
  destruct n as [|n]; simpl.
  - exists []. rewrite app_nil_r. split; [reflexivity|]. split; [reflexivity|]. congruence.
  - exists (skipn (S n) l). split; [now rewrite (firstn_skipn (S n) l)|]. split.
    + intros [H|H]; [discriminate|]. now apply skipn_all2.
    + intros _. apply firstn_le_length.
Qed.

(** The listing for a limit that is a whole number. *)
Lemma listCommand_lines (otherLimits : number -> Documents -> Outcome * Documents)
    (opts : ListOptions) (w : World) (n : nat) :
  JSString.truthy (lopt_mongo opts) = true ->
  wholeLimit (lopt_limit opts) = Some n ->
  let items :=
    limitTo n
      (sortNewest (List.filter (fun doc => matchesFilter opts (snd doc)) (ck_items w))) in
  listCommand otherLimits opts w
  = (Returned, w, ListHeader (length items) :: ListRule 80 :: List.map rowOf items).
Proof.
  intros Hmongo Hlimit. unfold listCommand, listItems. now rewrite Hmongo, Hlimit.
Qed.

(** What the query gives for the limit [n], and what it leaves out. *)
Lemma limited_split (n : nat) (matching : Documents) :
  exists rest,
    Permutation (limitTo n (sortNewest matching) ++ rest) matching
    /\ newestFirst (limitTo n (sortNewest matching))
    /\ (forall x y, In x (limitTo n (sortNewest matching)) -> In y rest ->
          ArchiveItem.createdAt (snd y) <= ArchiveItem.createdAt (snd x))
    /\ (n = O \/ (length matching <= n)%nat -> rest = [])
    /\ (n <> O -> (length (limitTo n (sortNewest matching)) <= n)%nat).
Proof.
  destruct (limitTo_split n (sortNewest matching)) as (rest & Hsplit & Hrest & Hlen).
  exists rest.
  pose proof (sortNewest_sorted matching) as Hsorted.
  rewrite Hsplit in Hsorted. apply newestFirst_app in Hsorted as [Hs Hxy].
  split; [|split; [exact Hs|split; [exact Hxy|split; [|exact Hlen]]]].
  - rewrite <- Hsplit. apply sortNewest_Permutation.
  - intros H. apply Hrest. destruct H as [H|H]; [now left|right].
    now rewrite (Permutation_length (sortNewest_Permutation matching)).
Qed.

(** X15. For a [--limit] that is a whole number from 0 up to the 32-bit
    range, a listing shows stored items only, each passing the filter of
    [--repo] and [--type], newest first, and no more of them than the limit
    when the limit is not 0; the count of its header is the number of its
    rows, and the command changes nothing.  What the store makes of other
    limits is left open. *)
Theorem list_shows_matching_items_newest_first
    (otherLimits : number -> Documents -> Outcome * Documents)
    (opts : ListOptions) (w : World) (n : nat) :
  JSString.truthy (lopt_mongo opts) = true ->
  wholeLimit (lopt_limit opts) = Some n ->
  exists items,
    listCommand otherLimits opts w
    = (Returned, w, ListHeader (length items) :: ListRule 80 :: List.map rowOf items)
    /\ (forall doc, In doc items ->
          In doc (ck_items w) /\ matchesFilter opts (snd doc) = true)
    /\ newestFirst items
    /\ (n <> O -> (length items <= n)%nat).
Proof.
  intros Hmongo Hlimit.
  set (matching := List.filter (fun doc => matchesFilter opts (snd doc)) (ck_items w)).
  exists (limitTo n (sortNewest matching)).
  split; [now apply listCommand_lines|].
  destruct (limited_split n matching) as (rest & Hperm & Hs & _ & _ & Hlen).
  split; [|split; assumption].
  intros doc Hdoc.
  assert (H : In doc (limitTo n (sortNewest matching) ++ rest))
    by (apply in_or_app; now left).
  apply (Permutation_in _ Hperm), filter_In in H. exact H.
Qed.

Lemma list_shows_matching_items_newest_first_witness :
  exists items,
    listCommand Samples.refusing Samples.listFiles Samples.archive
    = (Returned, Samples.archive,
       ListHeader (length items) :: ListRule 80 :: List.map rowOf items)
    /\ (forall doc, In doc items ->
          In doc (ck_items Samples.archive)
          /\ matchesFilter Samples.listFiles (snd doc) = true)
    /\ newestFirst items
    /\ (50%nat <> O -> (length items <= 50)%nat).
Proof.
  apply (list_shows_matching_items_newest_first Samples.refusing
           Samples.listFiles Samples.archive 50); reflexivity.
Defined.

(** X16. For such a limit, what a listing leaves out is no newer than what
    it shows: the rows and the rest together are the stored items that pass
    the filter, no item of the rest is newer than a shown one, and the rest
    is empty when the limit is 0 or not below the number of matching
    items. *)
Theorem list_limit_keeps_the_newest
    (otherLimits : number -> Documents -> Outcome * Documents)
    (opts : ListOptions) (w : World) (n : nat) :
  JSString.truthy (lopt_mongo opts) = true ->
  wholeLimit (lopt_limit opts) = Some n ->
  let matching := List.filter (fun doc => matchesFilter opts (snd doc)) (ck_items w) in
  exists items rest,
    snd (listCommand otherLimits opts w)
    = ListHeader (length items) :: ListRule 80 :: List.map rowOf items
    /\ Permutation (items ++ rest) matching
    /\ (forall x y, In x items -> In y rest ->
          ArchiveItem.createdAt (snd y) <= ArchiveItem.createdAt (snd x))
    /\ (n = O \/ (length matching <= n)%nat -> rest = []).
Proof.
  intros Hmongo Hlimit matching.
  destruct (limited_split n matching) as (rest & Hperm & _ & Hxy & Hrest & _).
  exists (limitTo n (sortNewest matching)), rest.
  rewrite (listCommand_lines otherLimits opts w n Hmongo Hlimit). auto.
Qed.

Lemma list_limit_keeps_the_newest_witness :
  let matching :=
    List.filter (fun doc => matchesFilter Samples.listOne (snd doc))
      (ck_items Samples.archive) in
  exists items rest,
    snd (listCommand Samples.refusing Samples.listOne Samples.archive)
    = ListHeader (length items) :: ListRule 80 :: List.map rowOf items
    /\ Permutation (items ++ rest) matching
    /\ (forall x y, In x items -> In y rest ->
          ArchiveItem.createdAt (snd y) <= ArchiveItem.createdAt (snd x))
    /\ (1%nat = O \/ (length matching <= 1)%nat -> rest = []).
Proof.
  apply (list_limit_keeps_the_newest Samples.refusing Samples.listOne
           Samples.archive 1); reflexivity.
Defined.

(** ** From a listing to a restore *)

Lemma slice_length (n : nat) : forall s,
  String.length (JSString.slice n s) = (String.length s - n)%nat.
Proof.
  induction n as [|n IH]; intros [|c s]; simpl; auto.
Qed.

Lemma sliceFromEnd_length (n : nat) (s : string) :
  (String.length (sliceFromEnd n s) <= n)%nat.
Proof. unfold sliceFromEnd. rewrite slice_length. lia. Qed.

(** X17. The identifier a row of a listing shows is the end of the real one,
    8 characters at most, and [restore] takes none of that length: given a
    listed identifier it stops on the error of [new ObjectId], before the
    store is asked, and restores nothing. *)
Theorem listed_id_is_not_restorable
    (otherLimits : number -> Documents -> Outcome * Documents)
    (lopts : ListOptions) (ropts : RestoreOptions)
    (resolve : string -> string) (w : World) (type : ItemType.t)
    (idEnd name path : string) (createdAt : Z) :
  In (ListRow type idEnd name path createdAt)
     (snd (listCommand otherLimits lopts w)) ->
  JSString.truthy (ropt_mongo ropts) = true ->
  restoreCommand resolve idEnd ropts w = (Thrown objectIdError, w).
Proof.
  intros Hrow Hmongo.
  assert (Hlen : (String.length idEnd <= 8)%nat).
  { unfold listCommand in Hrow.
    destruct (negb (JSString.truthy (lopt_mongo lopts))); [destruct Hrow|].
    destruct (listItems otherLimits lopts (ck_items w)) as [outcome items].
    destruct outcome; cbn in Hrow; try contradiction.
    destruct Hrow as [Hrow|[Hrow|Hrow]]; try discriminate.
    apply in_map_iff in Hrow as (doc & [= _ <- _ _ _] & _).
    apply sliceFromEnd_length. }
  unfold restoreCommand, newObjectId. rewrite Hmongo. simpl.
  destruct (String.length idEnd =? 24)%nat eqn:E; [|reflexivity].
  apply Nat.eqb_eq in E. lia.
Qed.

Lemma listed_id_is_not_restorable_witness :
  restoreCommand Demo.resolve "18293001" Demo.restoreOptions Samples.archive
  = (Thrown objectIdError, Samples.archive).
Proof.
  apply (listed_id_is_not_restorable Samples.refusing Samples.listFiles
           Demo.restoreOptions Demo.resolve Samples.archive ItemType.file
           "18293001" "file" "src/dead.ts" 1700000000010).
  - vm_compute. right. right. left. reflexivity.
  - reflexivity.
Defined.

(** ** The archived content *)

Lemma get_existsb (s : string) : forall i c,
  String.get i s = Some c ->
  existsb (Ascii.eqb c) (list_ascii_of_string s) = true.
Proof.
  induction s as [|d s IH]; intros i c; [destruct i; discriminate|].
  simpl. destruct i as [|i].
  - intros [= ->]. now rewrite Ascii.eqb_refl.
  - intros H. rewrite (IH i c H). apply orb_true_r.
Qed.

Lemma encode_shape (n : nat) : forall bs,
  (length bs <= n)%nat ->
  allChars isBase64Char (Base64.encode bs) = true
  /\ String.length (Base64.encode bs) = (4 * ((length bs + 2) / 3))%nat.
Proof.
  assert (Hc : forall v, isBase64Char (Base64.sextetChar v) = true).
  { intros v. unfold isBase64Char, Base64.sextetChar.
    destruct (String.get (Z.to_nat v) Base64.alphabet) as [c|] eqn:E;
      [|reflexivity].
    rewrite (get_existsb _ _ _ E). apply orb_true_r. }
  assert (Hp : isBase64Char Base64.pad = true) by reflexivity.
  induction n as [|n IH]; intros bs Hlen.
  - destruct bs; [split; reflexivity|simpl in Hlen; lia].
  - destruct bs as [|a [|b [|c rest]]]; cbn [Base64.encode allChars String.length length].
    + split; reflexivity.
    + rewrite !Hc, Hp. split; reflexivity.
    + rewrite !Hc, Hp. split; reflexivity.
    + destruct (IH rest) as [Hall Hl]; [simpl in Hlen; lia|].
      rewrite !Hc, Hall, Hl. split; [reflexivity|].
      replace (S (S (S (length rest))) + 2)%nat with (1 * 3 + (length rest + 2))%nat by lia.
      rewrite Nat.div_add_l by lia. lia.
Qed.

(** X18. The content of an archived item is standard base64 text: its length
    is four characters for every three bytes of the UTF-8 form of the text,
    the last group filled up, and each of its characters is one of the 64
    of the alphabet ([A]-[Z], [a]-[z], [0]-[9], [+], [/]) or the padding
    sign.  This is a fact of the codec of the runtime as it is written
    here. *)
Theorem toB64_is_padded_base64 (t : text) :
  allChars isBase64Char (toB64 t) = true
  /\ String.length (toB64 t) = (4 * ((length (Utf8.encode t) + 2) / 3))%nat.
Proof. unfold toB64. now apply (encode_shape (length (Utf8.encode t))). Qed.

(** ** Scanning again *)

Lemma undated_fileDocs (git : Git) (opts : ScanOptions) (ttl : Z)
    (clk : nat -> Z) (ids : nat -> ObjectId) (l : list SourceFile) :
  forall reads used,
    List.map (fun doc => undated (snd doc))
      (fileDocs git opts ttl clk ids reads used l)
    = List.map (fun sf => undated (fileItem git opts 0 0 sf)) l.
Proof.
  induction l as [|sf l IH]; simpl; intros reads used; [reflexivity|].
  now rewrite IH.
Qed.

Lemma undated_symbolDocs (git : Git) (opts : ScanOptions) (ttl : Z)
    (clk : nat -> Z) (ids : nat -> ObjectId) (l : list Unused.t) :
  forall reads used,
    List.map (fun doc => undated (snd doc))
      (symbolDocs git opts ttl clk ids reads used l)
    = List.map (fun u => undated (symbolItem git opts 0 0 u)) l.
Proof.
  induction l as [|u l IH]; simpl; intros reads used; [reflexivity|].
  now rewrite IH.
Qed.

(** The documents of a scan depend on the world for their dates and
    identifiers only. *)
Lemma undated_scanDocs (project : Project) (git : Git) (opts : ScanOptions)
    (w w' : World) (R : gset string) :
  List.map (fun doc => undated (snd doc)) (scanDocs project git opts w' R)
  = List.map (fun doc => undated (snd doc)) (scanDocs project git opts w R).
Proof.
  unfold scanDocs. rewrite !map_app.
  now rewrite !undated_fileDocs, !undated_symbolDocs.
Qed.

(** X19. A scan does not look at what the store holds: in report mode, a
    second scan of the same project inserts every item of the first once
    more, the same but for the dates and the identifiers, and the disk is
    still as it was. *)
Theorem rescan_archives_everything_again (project : Project) (git : Git)
    (opts : ScanOptions) (w : World) :
  JSString.truthy (opt_mongo opts) = true ->
  opt_apply opts = false ->
  let w1 := snd (scanCommand project git opts w) in
  let w2 := snd (scanCommand project git opts w1) in
  exists first second,
    ck_items w1 = ck_items w ++ first
    /\ ck_items w2 = ck_items w ++ first ++ second
    /\ disk w2 = disk w
    /\ List.map (fun doc => undated (snd doc)) second
       = List.map (fun doc => undated (snd doc)) first.
Proof.
  intros Hmongo Hreport w1 w2.
  destruct (scanCommand_result project git opts w Hmongo) as (R & HR & _ & H1).
  destruct (scanCommand_result project git opts w1 Hmongo) as (R' & HR' & _ & H2).
  assert (R' = R) as -> by congruence.
  exists (scanDocs project git opts w R), (scanDocs project git opts w1 R).
  split; [exact H1|]. split; [|split].
  - change (ck_items w1 = ck_items w ++ scanDocs project git opts w R) in H1.
    change (ck_items w2 = ck_items w1 ++ scanDocs project git opts w1 R) in H2.
    now rewrite H2, H1, app_assoc.
  - destruct (scanCommand_effect project git opts w1 Hmongo) as (_ & _ & _ & Hd2 & _).
    destruct (scanCommand_effect project git opts w Hmongo) as (_ & _ & _ & Hd1 & _).
    subst w2. rewrite (Hd2 Hreport). subst w1. now apply Hd1.
  - apply undated_scanDocs.
Qed.

Lemma rescan_archives_everything_again_witness :
  let w1 := snd (scanCommand Demo.project Demo.git Demo.options Demo.world) in
  let w2 := snd (scanCommand Demo.project Demo.git Demo.options w1) in
  exists first second,
    ck_items w1 = ck_items Demo.world ++ first
    /\ ck_items w2 = ck_items Demo.world ++ first ++ second
    /\ disk w2 = disk Demo.world
    /\ List.map (fun doc => undated (snd doc)) second
       = List.map (fun doc => undated (snd doc)) first.
Proof.
  apply (rescan_archives_everything_again Demo.project Demo.git Demo.options
           Demo.world); reflexivity.
Defined.
